(** * PageIndex, plain-text pipeline ([pageindex/page_index_txt.py])

    A shallow embedding of the text pipeline: the character windower, the
    section detector adapter, the section reconciler, the section
    materializer, the stack-based tree builder and the summary orchestrator,
    followed by the properties the design document states about them.

    Conventions.
    - A Python [str] is a list of Unicode code points ([list N]); [len] is
      the number of code points.
    - Python integers are [Z]; list indices that the code keeps non-negative
      are [nat].
    - A Python [dict] whose keys may be absent is a record of [option]
      fields; a [KeyError] is the [None] of the option monad.
    - The tree builder and the summary orchestrator mutate [dict] objects
      that are reachable from several places (the ancestor stack, the parent's
      child list, the flattened node list).  They are modelled over an explicit
      store of nodes addressed by allocation order. *)

From Stdlib Require Import ZArith List Lia Sorted Permutation.
From Stdlib Require Import DecimalString DecimalPos DecimalN.
From stdpp Require Import gmap strings list sorting.

Local Open Scope Z_scope.

(** ** Python strings *)

Abbreviation pystr := (list N).

(** A literal: the code points of an ASCII/Latin-1 string. *)
Definition py (s : string) : pystr :=
  List.map Ascii.N_of_ascii (String.list_ascii_of_string s).

Definition len {A} (s : list A) : Z := Z.of_nat (length s).

(** [str(n)] for an integer. *)
Definition str_of_Z (n : Z) : pystr :=
  py (NilZero.string_of_int (Z.to_int n)).

(** [s.zfill(width)] for a string without sign. *)
Definition zfill (width : nat) (s : pystr) : pystr :=
  replicate (width - length s) 48%N ++ s.

(** [str.isspace] on one code point, which is also what [\s] matches in a
    [str] pattern: CPython's [_PyUnicode_IsWhitespace] table. *)
Definition is_space (c : N) : bool :=
  ((9 <=? c) && (c <=? 13) || (28 <=? c) && (c <=? 32)
   || (c =? 133) || (c =? 160) || (c =? 5760)
   || (8192 <=? c) && (c <=? 8202)
   || (c =? 8232) || (c =? 8233) || (c =? 8239) || (c =? 8287)
   || (c =? 12288))%N.

(** The character class [[.!?]]. *)
Definition is_sentence_punct (c : N) : bool :=
  ((c =? 46) || (c =? 33) || (c =? 63))%N.

(** Normalisation of one bound of a slice [s[i:j]] over a sequence of
    length [n]: a negative bound counts from the end, and both bounds are
    clamped to [0..n]. *)
Definition slice_index (n i : Z) : Z :=
  if i <? 0 then Z.max 0 (i + n) else Z.min i n.

(** [s[i:j]] *)
Definition py_slice {A} (s : list A) (i j : Z) : list A :=
  let lo := slice_index (len s) i in
  let hi := slice_index (len s) j in
  take (Z.to_nat (hi - lo)) (drop (Z.to_nat lo) s).

Fixpoint lstrip (s : pystr) : pystr :=
  match s with
  | c :: r => if is_space c then lstrip r else s
  | [] => []
  end.

Definition rstrip (s : pystr) : pystr := rev (lstrip (rev s)).

(** [s.strip()] *)
Definition strip (s : pystr) : pystr := rstrip (lstrip s).

(** Length of the longest whitespace prefix: what [\s+] consumes. *)
Fixpoint ws_run (s : pystr) : nat :=
  match s with
  | c :: r => if is_space c then S (ws_run r) else O
  | [] => O
  end.

(** [[m.end() for m in re.finditer(r'[.!?]\s+', s)]], scanning from
    position [pos].  A match starts at every punctuation character that is
    followed by whitespace and extends over the whole whitespace run.  The
    characters a match consumes after its first one are whitespace, so no
    match can start inside an earlier one and scanning on from the next
    character finds the same matches as resuming after the match. *)
Fixpoint sentence_ends_from (pos : nat) (s : pystr) : list Z :=
  match s with
  | [] => []
  | c :: r =>
      if is_sentence_punct c && negb (Nat.eqb (ws_run r) 0)
      then Z.of_nat (pos + 1 + ws_run r) :: sentence_ends_from (S pos) r
      else sentence_ends_from (S pos) r
  end.

Definition sentence_endings (s : pystr) : list Z := sentence_ends_from 0 s.

(** ** Windower: [window_text_with_overlap] *)

Record Window := mkWindow {
  w_text : pystr;
  w_start : Z;
  w_end : Z
}.

(** One pass through the body of the [while] loop. *)
Inductive WindowStep :=
| LoopExit                              (* the loop condition is false *)
| LoopBreak (w : Window)                (* window appended, then [break] *)
| LoopNext (w : Window) (start' : Z).   (* window appended, next [start] *)

(** The window end chosen for a window that begins at [start]. *)
Definition window_end (text : pystr) (window_size start : Z) : Z :=
  let end_ := Z.min (start + window_size) (len text) in
  if end_ <? len text then
    let search_start := Z.max (end_ - 200) start in
    match last (sentence_endings (py_slice text search_start end_)) with
    | Some e => search_start + e
    | None => end_
    end
  else end_.

Definition window_step (text : pystr) (window_size overlap start : Z)
  : WindowStep :=
  if start <? len text then
    let end_ := window_end text window_size start in
    let w := mkWindow (py_slice text start end_) start end_ in
    if len text <=? end_ then LoopBreak w
    else LoopNext w (end_ - overlap)
  else LoopExit.

(** The [while] loop, run for at most [fuel] iterations; [None] when the
    loop is still running after them. *)
Fixpoint window_loop (fuel : nat) (text : pystr) (window_size overlap : Z)
    (start : Z) (windows : list Window) : option (list Window) :=
  match fuel with
  | O => None
  | S fuel' =>
      match window_step text window_size overlap start with
      | LoopExit => Some windows
      | LoopBreak w => Some (windows ++ [w])
      | LoopNext w start' =>
          window_loop fuel' text window_size overlap start' (windows ++ [w])
      end
  end.

Definition window_text_with_overlap (fuel : nat) (text : pystr)
    (window_size overlap : Z) : option (list Window) :=
  if len text <=? window_size then Some [mkWindow text 0 (len text)]
  else window_loop fuel text window_size overlap 0 [].

(** The sequence of values [start] takes at the head of the loop. *)
Fixpoint window_starts (n : nat) (text : pystr) (window_size overlap : Z)
    (start : Z) : option Z :=
  match n with
  | O => Some start
  | S n' =>
      match window_step text window_size overlap start with
      | LoopNext _ start' => window_starts n' text window_size overlap start'
      | _ => None
      end
  end.

(** ** Sections, as the oracle returns them and as the pipeline passes
    them on *)

(** A section [dict].  The oracle's JSON objects need not carry every key,
    and the code reads them with [in] and [.get]; the values that are
    present are taken to have the JSON types the prompt asks for. *)
Record RawSection := mkSection {
  sec_title : option pystr;
  sec_level : option Z;
  sec_char_start : option Z;
  sec_char_end : option Z;
  sec_chunk_idx : option nat
}.

#[global] Instance RawSection_eq_dec : EqDecision RawSection.
Proof. solve_decision. Defined.

(** What [extract_json] makes of a response: a JSON array of objects, or
    anything else (an object, a scalar, or the empty result of a failed
    parse). *)
Inductive Reply :=
| ReplyArray (sections : list RawSection)
| ReplyOther.

(** ** Section Detector Adapter: [detect_semantic_sections] *)

(** The body of [for section in sections]: a section that has both offsets
    is shifted, tagged and kept; any other is skipped. *)
Definition adjust_section (current_char_offset : Z) (chunk_idx : nat)
    (section : RawSection) : option RawSection :=
  match sec_char_start section, sec_char_end section with
  | Some cs, Some ce =>
      Some (mkSection (sec_title section) (sec_level section)
              (Some (cs + current_char_offset))
              (Some (ce + current_char_offset))
              (Some chunk_idx))
  | _, _ => None
  end.

Definition whole_document_section (text : pystr) : RawSection :=
  mkSection (Some (py "Document Content")) (Some 1) (Some 0)
    (Some (len text)) None.

Section Detector.
(** External collaborators ([utils]).  [ChatGPT_API_async model k chunk]
    is the response to the [k]-th request, whose prompt is the fixed
    instruction template around [chunk]. *)
Variable split_text_into_chunks : pystr -> Z -> option pystr -> list pystr.
Variable ChatGPT_API_async : option pystr -> nat -> pystr -> pystr.
Variable extract_json : pystr -> Reply.

(** [for chunk_idx, chunk in enumerate(chunks)], from [chunk_idx] on. *)
Fixpoint detect_loop (model : option pystr) (n_chunks : Z)
    (chunk_idx : nat) (chunks : list pystr) (current_char_offset : Z)
    (all_sections : list RawSection) : list RawSection :=
  match chunks with
  | [] => all_sections
  | chunk :: rest =>
      let response := ChatGPT_API_async model chunk_idx chunk in
      let sections :=
        match extract_json response with
        | ReplyArray l => l
        | ReplyOther => []
        end in
      let all_sections' :=
        all_sections
        ++ omap (adjust_section current_char_offset chunk_idx) sections in
      let current_char_offset' :=
        if Z.of_nat chunk_idx <? n_chunks - 1
        then current_char_offset + len chunk
        else current_char_offset in
      detect_loop model n_chunks (S chunk_idx) rest current_char_offset'
        all_sections'
  end.

(** [if max_input_tokens:] is false for [None] and for [0]. *)
Definition detect_chunks (text : pystr) (model : option pystr)
    (max_input_tokens : option Z) : list pystr :=
  match max_input_tokens with
  | Some m =>
      if m =? 0 then [text] else split_text_into_chunks text m model
  | None => [text]
  end.

Definition detect_semantic_sections (text : pystr) (model : option pystr)
    (max_input_tokens : option Z) : list RawSection :=
  let chunks := detect_chunks text model max_input_tokens in
  let all_sections := detect_loop model (len chunks) 0 chunks 0 [] in
  match all_sections with
  | [] => [whole_document_section text]
  | _ => all_sections
  end.
End Detector.

(** ** Section Reconciler: [merge_overlapping_sections] *)

(** [section.get('level', 1)] and [section.get('title', '')] *)
Definition level_or_1 (section : RawSection) : Z :=
  default 1 (sec_level section).
Definition title_or_empty (section : RawSection) : pystr :=
  default [] (sec_title section).

(** The sort key [(x['char_start'], x.get('level', 1))]; [None] is the
    [KeyError] of a section without [char_start]. *)
Definition sort_key (section : RawSection) : option (Z * Z) :=
  cs ← sec_char_start section; Some (cs, level_or_1 section).

(** [position_key] *)
Definition position_key (section : RawSection) : option (Z * Z * pystr) :=
  cs ← sec_char_start section;
  Some (cs, level_or_1 section, title_or_empty section).

(** Tuple comparison [a <= b] on sort keys. *)
Definition key_le (a b : Z * Z) : bool :=
  (a.1 <? b.1) || ((a.1 =? b.1) && (a.2 <=? b.2)).

(** [sorted(..., key=...)] is a stable sort of the sections decorated with
    their keys.  A stable sort has one possible result, so the stable
    insertion sort below returns what Python's does. *)
Fixpoint insert_by_key {A} (x : (Z * Z) * A) (l : list ((Z * Z) * A))
  : list ((Z * Z) * A) :=
  match l with
  | [] => [x]
  | y :: r => if key_le x.1 y.1 then x :: y :: r else y :: insert_by_key x r
  end.

Fixpoint sort_by_key {A} (l : list ((Z * Z) * A)) : list ((Z * Z) * A) :=
  match l with
  | [] => []
  | x :: r => insert_by_key x (sort_by_key r)
  end.

Definition decorate (section : RawSection) : option ((Z * Z) * RawSection) :=
  k ← sort_key section; Some (k, section).

Definition sorted_sections (sections : list RawSection)
  : option (list RawSection) :=
  keyed ← mapM decorate sections; Some ((sort_by_key keyed).*2).

(** [for section in sorted_sections], with the set [seen_positions] and the
    list [merged]. *)
Fixpoint dedup_loop (sorted : list RawSection)
    (seen_positions : gset (Z * Z * pystr)) (merged : list RawSection)
  : option (list RawSection) :=
  match sorted with
  | [] => Some merged
  | section :: rest =>
      k ← position_key section;
      if decide (k ∈ seen_positions)
      then dedup_loop rest seen_positions merged
      else dedup_loop rest ({[k]} ∪ seen_positions) (merged ++ [section])
  end.

Definition merge_overlapping_sections (sections : list RawSection)
  : option (list RawSection) :=
  match sections with
  | [] => Some []
  | _ => sorted ← sorted_sections sections; dedup_loop sorted ∅ []
  end.

(** ** Section Materializer: [extract_section_text] *)

Record CandidateNode := mkCandidate {
  cand_title : pystr;
  cand_level : Z;
  cand_char_start : Z;
  cand_char_end : Z;
  cand_text : pystr
}.

(** The end of the span of section [i]. *)
Definition section_end (text : pystr) (sections : list RawSection)
    (i : nat) (section : RawSection) : Z :=
  let own_end := default (len text) (sec_char_end section) in
  if (Z.of_nat i + 1 <? len sections) then
    match sections !! S i with
    | Some next => default own_end (sec_char_start next)
    | None => own_end   (* not reached: [i + 1] is in range *)
    end
  else own_end.

Definition extract_node (text : pystr) (sections : list RawSection)
    (i : nat) (section : RawSection) : CandidateNode :=
  let start := default 0 (sec_char_start section) in
  let end_ := section_end text sections i section in
  let section_text := strip (py_slice text start end_) in
  mkCandidate
    (default (py "Section " ++ str_of_Z (Z.of_nat i + 1)) (sec_title section))
    (level_or_1 section) start end_ section_text.

(** [for i, section in enumerate(sections)], from index [i] on; [rest] is
    the part of [sections] not yet visited. *)
Fixpoint extract_loop (text : pystr) (sections : list RawSection)
    (i : nat) (rest : list RawSection) : list CandidateNode :=
  match rest with
  | [] => []
  | section :: rest' =>
      extract_node text sections i section
      :: extract_loop text sections (S i) rest'
  end.

Definition extract_section_text (text : pystr) (sections : list RawSection)
  : list CandidateNode :=
  extract_loop text sections 0 sections.

(** ** Tree Builder: [build_tree_from_txt_nodes] *)

(** A tree node [dict].  Children are references (addresses in the store).
    The keys that [format_structure] may drop or that are filled in later
    are optional. *)
Record TreeNode := mkNode {
  node_title : pystr;
  node_id : option pystr;
  node_text : option pystr;
  node_char_start : Z;
  node_char_end : Z;
  node_nodes : option (list nat);
  node_summary : option pystr;
  node_prefix_summary : option pystr
}.

(** A structure: the node objects and the list of roots. *)
Record Structure := mkStructure {
  st_store : list TreeNode;
  st_roots : list nat
}.

(** [parent_node['nodes'].append(tree_node)] *)
Definition append_child (child : nat) (parent : TreeNode) : TreeNode :=
  mkNode (node_title parent) (node_id parent) (node_text parent)
    (node_char_start parent) (node_char_end parent)
    (Some (default [] (node_nodes parent) ++ [child]))
    (node_summary parent) (node_prefix_summary parent).

(** The state of the loop.  The head of [bs_stack] is [stack[-1]]. *)
Record BuildState := mkBuild {
  bs_store : list TreeNode;
  bs_stack : list (nat * Z);
  bs_root_nodes : list nat;
  bs_node_counter : Z
}.

(** [while stack and stack[-1][1] >= current_level: stack.pop()] *)
Fixpoint pop_closed (stack : list (nat * Z)) (current_level : Z)
  : list (nat * Z) :=
  match stack with
  | (_, parent_level) :: below =>
      if current_level <=? parent_level then pop_closed below current_level
      else stack
  | [] => []
  end.

Definition build_step (st : BuildState) (node : CandidateNode) : BuildState :=
  let current_level := cand_level node in
  let tree_node :=
    mkNode (cand_title node)
      (Some (zfill 4 (str_of_Z (bs_node_counter st))))
      (Some (cand_text node)) (cand_char_start node) (cand_char_end node)
      (Some []) None None in
  let ref := length (bs_store st) in
  let store := bs_store st ++ [tree_node] in
  let stack := pop_closed (bs_stack st) current_level in
  match stack with
  | [] =>
      mkBuild store [(ref, current_level)] (bs_root_nodes st ++ [ref])
        (bs_node_counter st + 1)
  | (parent_node, _) :: _ =>
      mkBuild (alter (append_child ref) parent_node store)
        ((ref, current_level) :: stack) (bs_root_nodes st)
        (bs_node_counter st + 1)
  end.

Definition build_tree_from_txt_nodes (node_list : list CandidateNode)
  : Structure :=
  match node_list with
  | [] => mkStructure [] []
  | _ =>
      let st := fold_left build_step node_list (mkBuild [] [] [] 1) in
      mkStructure (bs_store st) (bs_root_nodes st)
  end.

(** The children of the node at [p], and its descendants. *)
Definition children (store : list TreeNode) (p : nat) : list nat :=
  match store !! p with
  | Some n => default [] (node_nodes n)
  | None => []
  end.

Inductive descendant (store : list TreeNode) : nat -> nat -> Prop :=
| desc_child p c : c ∈ children store p -> descendant store p c
| desc_step p c d :
    c ∈ children store p -> descendant store c d -> descendant store p d.

(** ** Summary Orchestrator *)

(** What [get_node_summary_txt] comes to: the text itself, or a request to
    the external summarizer whose answer is returned as it is. *)
Inductive SummaryTask :=
| Immediate (summary : pystr)
| AskOracle (node : TreeNode).

(** [not node.get('nodes')] *)
Definition is_leaf (node : TreeNode) : bool :=
  match node_nodes node with
  | Some (_ :: _) => false
  | _ => true
  end.

(** [node['summary'] = summary] or [node['prefix_summary'] = summary] *)
Definition write_summary (summary : pystr) (node : TreeNode) : TreeNode :=
  if is_leaf node then
    mkNode (node_title node) (node_id node) (node_text node)
      (node_char_start node) (node_char_end node) (node_nodes node)
      (Some summary) (node_prefix_summary node)
  else
    mkNode (node_title node) (node_id node) (node_text node)
      (node_char_start node) (node_char_end node) (node_nodes node)
      (node_summary node) (Some summary).

(** The node objects a list of references points to. *)
Definition live_nodes (store : list TreeNode) (refs : list nat)
  : list (nat * TreeNode) :=
  omap (fun a => pair a <$> store !! a) refs.

(** The requests among the tasks, each with its position in the task list. *)
Definition oracle_calls (tasks : list SummaryTask) : list (nat * TreeNode) :=
  omap (fun it => match it.2 with
                  | AskOracle node => Some (it.1, node)
                  | Immediate _ => None
                  end) (imap pair tasks).

Record DocumentResult := mkResult {
  doc_name : pystr;
  doc_description : option pystr;
  structure : Structure
}.

Section Pipeline.
(** External collaborators ([utils] and the file system). *)
Variable split_text_into_chunks : pystr -> Z -> option pystr -> list pystr.
Variable ChatGPT_API_async : option pystr -> nat -> pystr -> pystr.
Variable extract_json : pystr -> Reply.
Variable count_tokens : pystr -> option pystr -> Z.
(** [generate_node_summary model max_input_tokens k node]: the answer to
    the request of the [k]-th task. *)
Variable generate_node_summary :
  option pystr -> option Z -> nat -> TreeNode -> pystr.
(** The references to all nodes of a structure. *)
Variable structure_to_list : Structure -> list nat.
Variable write_node_id : Structure -> Structure.
Variable format_structure : Structure -> list pystr -> Structure.
Variable create_clean_structure_for_description : Structure -> Structure.
Variable generate_doc_description :
  Structure -> option pystr -> option Z -> pystr.
Variable read_file : pystr -> pystr.
(** [os.path.splitext(os.path.basename(path))[0]] *)
Variable path_stem : pystr -> pystr.

Definition get_node_summary_txt (node : TreeNode)
    (summary_token_threshold : Z) (model : option pystr) : SummaryTask :=
  let text := default [] (node_text node) in
  let num_tokens := count_tokens text model in
  if num_tokens <? summary_token_threshold then Immediate text
  else AskOracle node.

(** [asyncio.gather] over the tasks: the results, in the order of the
    tasks. *)
Definition gather (model : option pystr) (max_input_tokens : option Z)
    (tasks : list SummaryTask) : list pystr :=
  imap (fun k task =>
          match task with
          | Immediate s => s
          | AskOracle node =>
              generate_node_summary model max_input_tokens k node
          end) tasks.

(** [for node, summary in zip(nodes, summaries)] *)
Definition write_back (store : list TreeNode)
    (pairs : list ((nat * TreeNode) * pystr)) : list TreeNode :=
  fold_left (fun st p => alter (write_summary p.2) p.1.1 st) pairs store.

(** Returns the structure and, for the record, the requests made to the
    summarizer. *)
Definition generate_summaries_for_txt_structure (s : Structure)
    (summary_token_threshold : Z) (model : option pystr)
    (max_input_tokens : option Z) : Structure * list (nat * TreeNode) :=
  let nodes := live_nodes (st_store s) (structure_to_list s) in
  let tasks :=
    (fun n => get_node_summary_txt n.2 summary_token_threshold model)
      <$> nodes in
  let summaries := gather model max_input_tokens tasks in
  (mkStructure (write_back (st_store s) (zip nodes summaries)) (st_roots s),
   oracle_calls tasks).

Definition order_with_text : list pystr :=
  [py "title"; py "node_id"; py "summary"; py "prefix_summary"; py "text";
   py "char_start"; py "char_end"; py "nodes"].
Definition order_without_text : list pystr :=
  [py "title"; py "node_id"; py "summary"; py "prefix_summary";
   py "char_start"; py "char_end"; py "nodes"].

Definition yes (flag : pystr) : bool := bool_decide (flag = py "yes").

(** [txt_to_tree]: what is printed, and what is returned. *)
Definition txt_to_tree (txt_path : pystr) (window_size overlap : Z)
    (if_add_node_summary : pystr) (summary_token_threshold : Z)
    (model : option pystr)
    (if_add_doc_description if_add_node_text if_add_node_id : pystr)
    (max_input_tokens : option Z) : list pystr * DocumentResult :=
  let text := read_file txt_path in
  let out1 :=
    [py "Processing text file with " ++ str_of_Z (len text)
       ++ py " characters...";
     py "Using windowing approach with window_size="
       ++ str_of_Z window_size ++ py ", overlap=" ++ str_of_Z overlap;
     py "Detecting semantic sections..."] in
  let sections :=
    detect_semantic_sections split_text_into_chunks ChatGPT_API_async
      extract_json text model max_input_tokens in
  let out2 :=
    [py "Found " ++ str_of_Z (len sections) ++ py " semantic sections"] in
  (* the detector's sections all carry [char_start], so the reconciler
     does not raise on them *)
  let sections := default [] (merge_overlapping_sections sections) in
  let nodes_with_content := extract_section_text text sections in
  let tree_structure := build_tree_from_txt_nodes nodes_with_content in
  let tree_structure :=
    if yes if_add_node_id then write_node_id tree_structure
    else tree_structure in
  let out3 :=
    [py "Extracting section content..."; py "Building tree structure...";
     py "Formatting tree structure..."] in
  let name := path_stem txt_path in
  if yes if_add_node_summary then
    let tree_structure := format_structure tree_structure order_with_text in
    let tree_structure :=
      (generate_summaries_for_txt_structure tree_structure
         summary_token_threshold model max_input_tokens).1 in
    let tree_structure :=
      if bool_decide (if_add_node_text = py "no")
      then format_structure tree_structure order_without_text
      else tree_structure in
    let out4 := [py "Generating summaries for each node..."] in
    if yes if_add_doc_description then
      let clean_structure :=
        create_clean_structure_for_description tree_structure in
      let description :=
        generate_doc_description clean_structure model max_input_tokens in
      (out1 ++ out2 ++ out3 ++ out4
         ++ [py "Generating document description..."],
       mkResult name (Some description) tree_structure)
    else
      (out1 ++ out2 ++ out3 ++ out4, mkResult name None tree_structure)
  else
    let tree_structure :=
      if yes if_add_node_text
      then format_structure tree_structure order_with_text
      else format_structure tree_structure order_without_text in
    (out1 ++ out2 ++ out3, mkResult name None tree_structure).
End Pipeline.

(** ** Specification vocabulary: windower *)

(** Each window starts at or before the end of the one before it, and the
    two share at most [overlap] characters. *)
Fixpoint adjacent_ok (overlap : Z) (ws : list Window) : Prop :=
  match ws with
  | w1 :: r =>
      match r with
      | w2 :: _ =>
          w_start w2 <= w_end w1 /\ w_end w1 - w_start w2 <= overlap
      | [] => True
      end /\ adjacent_ok overlap r
  | [] => True
  end.

(** The windows run from offset 0 to the end of the text without a gap. *)
Definition covers (text : pystr) (overlap : Z) (ws : list Window) : Prop :=
  w_start <$> head ws = Some 0 /\
  w_end <$> last ws = Some (len text) /\
  adjacent_ok overlap ws.

(** What holds of [start] and [windows] at the head of the loop. *)
Definition window_inv (text : pystr) (overlap start : Z)
    (windows : list Window) : Prop :=
  start < len text /\
  adjacent_ok overlap windows /\
  ((windows = [] /\ start = 0) \/
   (exists wl, last windows = Some wl /\ start = w_end wl - overlap /\
               w_start <$> head windows = Some 0)).

(** ** Specification vocabulary: detector *)

Definition reply_sections (r : Reply) : list RawSection :=
  match r with
  | ReplyArray l => l
  | ReplyOther => []
  end.

(** Both offsets present and [0 <= char_start <= char_end <= bound]. *)
Definition span_within (bound : Z) (s : RawSection) : Prop :=
  exists cs ce,
    sec_char_start s = Some cs /\ sec_char_end s = Some ce /\
    0 <= cs /\ cs <= ce /\ ce <= bound.

(** The offsets a reply gives, where it gives both, lie in [0..bound]
    and are ordered. *)
Definition offsets_ordered (bound : Z) (s : RawSection) : Prop :=
  forall cs ce,
    sec_char_start s = Some cs -> sec_char_end s = Some ce ->
    0 <= cs /\ cs <= ce /\ ce <= bound.

Definition total_len (chunks : list pystr) : Z :=
  foldr (fun c acc => len c + acc) 0 chunks.

(** ** Specification vocabulary: reconciler *)

Definition has_char_start (s : RawSection) : Prop :=
  is_Some (sec_char_start s).

(** [char_start] ascending, ties broken by [level] ascending. *)
Definition section_le (s1 s2 : RawSection) : Prop :=
  exists c1 c2,
    sec_char_start s1 = Some c1 /\ sec_char_start s2 = Some c2 /\
    (c1 < c2 \/ (c1 = c2 /\ level_or_1 s1 <= level_or_1 s2)).

(** [x] has the dedup key of [s]. *)
Definition same_key (s x : RawSection) : Prop :=
  position_key x = position_key s.

#[global] Instance same_key_dec s x : Decision (same_key s x).
Proof. unfold same_key. apply _. Defined.

(** A section with its sort key, for sections that have one. *)
Definition tag (s : RawSection) : (Z * Z) * RawSection :=
  (default (0, 0) (sort_key s), s).

Definition keyed_le {A} (x y : (Z * Z) * A) : Prop := key_le x.1 y.1 = true.

(** Two overlapping windows that both report the introduction. *)
Definition sample_sections : list RawSection :=
  [mkSection (Some (py "B")) (Some 2) (Some 7) (Some 9) (Some 1%nat);
   mkSection (Some (py "Intro")) (Some 1) (Some 0) (Some 7) (Some 0%nat);
   mkSection (Some (py "Intro")) (Some 1) (Some 0) (Some 5) (Some 1%nat);
   mkSection (Some (py "A")) (Some 1) (Some 7) (Some 9) (Some 1%nat)].

(** ** Specification vocabulary: tree builder *)

(** The source level of the node at address [a]: the level of the
    candidate it was built from.  The builder allocates one node per
    candidate, in order, so address [a] holds the node of candidate [a]. *)
Definition level_at (node_list : list CandidateNode) (a : nat) : option Z :=
  cand_level <$> node_list !! a.

(** [p] and [c] both have a source level, and that of [c] is greater. *)
Definition deeper (node_list : list CandidateNode) (p c : nat) : Prop :=
  exists lp lc,
    level_at node_list p = Some lp /\ level_at node_list c = Some lc /\
    lp < lc.

(** The node was built from the candidate. *)
Definition built_from (cand : CandidateNode) (n : TreeNode) : Prop :=
  node_title n = cand_title cand /\ node_text n = Some (cand_text cand) /\
  node_char_start n = cand_char_start cand /\
  node_char_end n = cand_char_end cand.

(** The loop invariant, after the candidates [done]. *)
Record build_inv (done : list CandidateNode) (st : BuildState) : Prop := {
  inv_length : length (bs_store st) = length done;
  inv_stack : forall a lv, (a, lv) ∈ bs_stack st -> level_at done a = Some lv;
  inv_edges : forall p c, c ∈ children (bs_store st) p -> deeper done p c;
  inv_nodes : forall a n, bs_store st !! a = Some n ->
                exists cand, done !! a = Some cand /\ built_from cand n
}.

(** The outline [1, 2, 2, 1, 3] of the design document. *)
Definition sample_outline : list CandidateNode :=
  [mkCandidate (py "a") 1 0 10 (py "a"); mkCandidate (py "b") 2 10 20 (py "b");
   mkCandidate (py "c") 2 20 30 (py "c"); mkCandidate (py "d") 1 30 40 (py "d");
   mkCandidate (py "e") 3 40 50 (py "e")].

(** ** Specification vocabulary: summaries *)

(** The value the orchestrator wrote into the node is [text]: in [summary]
    for a leaf, in [prefix_summary] otherwise. *)
Definition written (text : pystr) (n : TreeNode) : Prop :=
  if is_leaf n then node_summary n = Some text
  else node_prefix_summary n = Some text.

(** A two-node tree: a parent with a short text and a child with a long
    one, under a token counter that counts characters. *)
Definition sample_tree : Structure :=
  mkStructure
    [mkNode (py "Top") (Some (py "0001")) (Some (py "short")) 0 5
       (Some [1%nat]) None None;
     mkNode (py "Sub") (Some (py "0002")) (Some (py "a much longer text")) 5 23
       (Some []) None None]
    [0%nat].

(** ** Specification vocabulary: further behaviour of the windower *)

(** A window lies inside the text, is at most [window_size] long, and
    carries exactly the characters of its range. *)
Definition window_well_formed (text : pystr) (window_size : Z) (w : Window)
  : Prop :=
  0 <= w_start w /\ w_start w <= w_end w /\ w_end w <= len text /\
  w_end w - w_start w <= window_size /\
  w_text w = py_slice text (w_start w) (w_end w) /\
  len (w_text w) = w_end w - w_start w.

(** The step from one value of [start] to the next, when there is one. *)
Definition next_start (text : pystr) (window_size overlap start : Z)
  : option Z :=
  match window_step text window_size overlap start with
  | LoopNext _ start' => Some start'
  | _ => None
  end.

(** Three hundred times the letter [a]. *)
Definition long_text : pystr := replicate 300 97%N.

(** ** Specification vocabulary: further behaviour of the detector and the
    reconciler *)

(** The sections kept from the reply for sub-chunk [k], shifted by
    [offset] and tagged [k]. *)
Definition translated (api : option pystr -> nat -> pystr -> pystr)
    (ej : pystr -> Reply) (model : option pystr) (offset : Z) (k : nat)
    (chunk : pystr) : list RawSection :=
  omap (adjust_section offset k) (reply_sections (ej (api model k chunk))).

(** All sub-chunks' sections, those of sub-chunk [k] shifted by the total
    length of the sub-chunks before it. *)
Definition collected (api : option pystr -> nat -> pystr -> pystr)
    (ej : pystr -> Reply) (model : option pystr) (chunks : list pystr)
  : list RawSection :=
  mjoin (imap (fun k chunk =>
                 translated api ej model (total_len (take k chunks)) k chunk)
           chunks).

(** Three sections with distinct keys, out of order. *)
Definition distinct_sections : list RawSection :=
  [mkSection (Some (py "B")) (Some 2) (Some 7) (Some 9) None;
   mkSection (Some (py "A")) (Some 2) (Some 7) (Some 8) None;
   mkSection (Some (py "Intro")) (Some 1) (Some 0) (Some 7) None].

(** ** Specification vocabulary: the shape of the built tree *)

(** The level of candidate [a]. *)
Definition lv (node_list : list CandidateNode) (a : nat) : Z :=
  default 0 (level_at node_list a).

(** [p] is the nearest candidate before [c] with a smaller level: it is
    shallower than [c], and every candidate between them is at least as
    deep as [c]. *)
Definition nearest_shallower (node_list : list CandidateNode) (p c : nat)
  : Prop :=
  (p < c < length node_list)%nat /\
  lv node_list p < lv node_list c /\
  forall q, (p < q < c)%nat -> lv node_list c <= lv node_list q.

(** No candidate before [c] has a smaller level than [c]. *)
Definition no_shallower_before (node_list : list CandidateNode) (c : nat)
  : Prop :=
  (c < length node_list)%nat /\
  forall q, (q < c)%nat -> lv node_list c <= lv node_list q.

(** [q] lies above the top of the stack. *)
Definition above (stack : list (nat * Z)) (q : nat) : Prop :=
  match stack with
  | (b, _) :: _ => (b < q)%nat
  | [] => True
  end.

(** The stack, top first: every entry carries the level of its candidate;
    addresses and levels strictly decrease downwards; and every candidate
    between an entry and the entry below it (or the start of the list) is
    at least as deep as the entry. *)
Fixpoint stack_chain (node_list : list CandidateNode)
    (stack : list (nat * Z)) : Prop :=
  match stack with
  | [] => True
  | (a, l) :: below =>
      lv node_list a = l /\ (a < length node_list)%nat /\
      (forall q, (q < a)%nat -> above below q -> l <= lv node_list q) /\
      match below with
      | (b, lb) :: _ => (b < a)%nat /\ lb < l
      | [] => True
      end /\
      stack_chain node_list below
  end.

(** The loop invariant that fixes the shape of the tree. *)
Record shape_inv (done : list CandidateNode) (st : BuildState) : Prop := {
  shape_length : length (bs_store st) = length done;
  shape_top : match bs_stack st with
              | (a, _) :: _ => S a = length done
              | [] => done = []
              end;
  shape_chain : stack_chain done (bs_stack st);
  shape_edges : forall p c,
      c ∈ children (bs_store st) p <-> nearest_shallower done p c;
  shape_roots : forall c,
      c ∈ bs_root_nodes st <-> no_shallower_before done c;
  shape_cover : forall c, (c < length done)%nat ->
      c ∈ bs_root_nodes st \/ exists p, c ∈ children (bs_store st) p;
  shape_children_sorted : forall p,
      StronglySorted Nat.lt (children (bs_store st) p);
  shape_roots_sorted : StronglySorted Nat.lt (bs_root_nodes st);
  shape_ids : forall a n, bs_store st !! a = Some n ->
      node_id n = Some (zfill 4 (str_of_Z (Z.of_nat a + 1)));
  shape_counter : bs_node_counter st = Z.of_nat (length done) + 1
}.

(** The string a Python [str] of Latin-1 characters stands for, and the
    number a string of decimal digits denotes (what [int(s)] returns on
    such a string). *)
Definition unpy (s : pystr) : string :=
  String.string_of_list_ascii (Ascii.ascii_of_N <$> s).

Definition int_of_digits (s : pystr) : option Z :=
  (fun d => Z.of_N (N.of_uint d)) <$> NilEmpty.uint_of_string (unpy s).

(** ** Specification vocabulary: what the summaries leave alone *)

(** The two nodes agree on every key other than [summary] and
    [prefix_summary]. *)
Definition same_but_summaries (n n' : TreeNode) : Prop :=
  node_title n' = node_title n /\ node_id n' = node_id n /\
  node_text n' = node_text n /\ node_char_start n' = node_char_start n /\
  node_char_end n' = node_char_end n /\ node_nodes n' = node_nodes n.

(** ** Command line: the input checks of [run_pageindex.py] *)

Inductive Dispatch :=
| RaiseValueError (message : pystr)
| ProcessPdf (path : pystr)
| ProcessMd (path : pystr)
| ProcessTxt (path : pystr)
| NoAction.   (* the [if]/[elif] chain ends without a branch taken *)

(** [bool(path)] for an argument that is [None] or a string. *)
Definition given (path : option pystr) : bool :=
  match path with
  | Some (_ :: _) => true
  | _ => false
  end.

(** [s.endswith(suffix)] *)
Definition endswith (s suffix : pystr) : bool :=
  bool_decide (drop (length s - length suffix) s = suffix).

Definition msg_none : pystr :=
  py "One of --pdf_path, --md_path, or --txt_path must be specified".
Definition msg_many : pystr :=
  py "Only one of --pdf_path, --md_path, or --txt_path can be specified".

Section CommandLine.
(** [str.lower] and [os.path.isfile]. *)
Variable lower : pystr -> pystr.
Variable isfile : pystr -> bool.

(** The checks made before any processing, and the branch taken. *)
Definition dispatch (pdf_path md_path txt_path : option pystr) : Dispatch :=
  let file_count :=
    Z.b2z (given pdf_path) + Z.b2z (given md_path) + Z.b2z (given txt_path) in
  if file_count =? 0 then RaiseValueError msg_none
  else if 1 <? file_count then RaiseValueError msg_many
  else if given pdf_path then
    let path := default [] pdf_path in
    if negb (endswith (lower path) (py ".pdf"))
    then RaiseValueError (py "PDF file must have .pdf extension")
    else if negb (isfile path)
    then RaiseValueError (py "PDF file not found: " ++ path)
    else ProcessPdf path
  else if given md_path then
    let path := default [] md_path in
    if negb (endswith (lower path) (py ".md")
             || endswith (lower path) (py ".markdown"))
    then RaiseValueError (py "Markdown file must have .md or .markdown extension")
    else if negb (isfile path)
    then RaiseValueError (py "Markdown file not found: " ++ path)
    else ProcessMd path
  else if given txt_path then
    let path := default [] txt_path in
    if negb (endswith (lower path) (py ".txt"))
    then RaiseValueError (py "Text file must have .txt extension")
    else if negb (isfile path)
    then RaiseValueError (py "Text file not found: " ++ path)
    else ProcessTxt path
  else NoAction.
End CommandLine.

(** ** Specification vocabulary: where a shortened window ends *)



(** * Properties *)

Lemma len_nonneg {A} (l : list A) : 0 <= len l.
Proof. unfold len. lia. Qed.

Example window_small :
  window_text_with_overlap 0 (py "Hello. World") 5000 500
  = Some [mkWindow (py "Hello. World") 0 12].
Proof. reflexivity. Qed.

Example window_snap :
  window_text_with_overlap 5 (py "One. Two three four") 8 1
  = Some [mkWindow (py "One. ") 0 5; mkWindow (py " Two thr") 4 12;
          mkWindow (py "ree four") 11 19].
Proof. vm_compute. reflexivity. Qed.

(** ** Windower: the loop need not advance *)

Lemma window_loop_stuck text window_size overlap start w :
  window_step text window_size overlap start = LoopNext w start ->
  forall fuel windows,
    window_loop fuel text window_size overlap start windows = None.
Proof.
  intros Hstep fuel. induction fuel as [|fuel IH]; intros windows; simpl.
  - reflexivity.
  - rewrite Hstep. apply IH.
Qed.

Lemma window_starts_stuck text window_size overlap start w :
  window_step text window_size overlap start = LoopNext w start ->
  forall n, window_starts n text window_size overlap start = Some start.
Proof.
  intros Hstep n. induction n as [|n IH]; simpl; [done|]. by rewrite Hstep.
Qed.

Lemma window_loop_cycle2 text window_size overlap s1 s2 w1 w2 :
  window_step text window_size overlap s1 = LoopNext w1 s2 ->
  window_step text window_size overlap s2 = LoopNext w2 s1 ->
  forall fuel windows,
    window_loop fuel text window_size overlap s1 windows = None /\
    window_loop fuel text window_size overlap s2 windows = None.
Proof.
  intros H1 H2 fuel. induction fuel as [|fuel IH]; intros windows; simpl.
  - split; reflexivity.
  - rewrite H1, H2. split; apply IH.
Qed.

(** C2 (the code does not do this).  With [window_size = 3] and
    [overlap = 2], so that [0 <= overlap < window_size], on the text
    [". abcdefg"] the first window is cut back to the sentence end at
    offset 2, the next [start] is [2 - 2 = 0] again, [start] is 0 at the
    head of every iteration, and the loop never returns, whatever number of
    iterations it is given. *)
Theorem window_start_stuck :
  let text := py ". abcdefg" in
  (0 <= 2 < 3) /\
  window_step text 3 2 0 = LoopNext (mkWindow (py ". ") 0 2) 0 /\
  (forall n, window_starts n text 3 2 0 = Some 0) /\
  forall fuel, window_text_with_overlap fuel text 3 2 = None.
Proof.
  intros text.
  assert (Hstep : window_step text 3 2 0 = LoopNext (mkWindow (py ". ") 0 2) 0)
    by (vm_compute; reflexivity).
  split; [lia|]. split; [exact Hstep|]. split.
  { by apply (window_starts_stuck _ _ _ _ _ Hstep). }
  intros fuel. unfold window_text_with_overlap.
  replace (len text <=? 3) with false by (vm_compute; reflexivity).
  eapply window_loop_stuck. vm_compute. reflexivity.
Qed.

(** C9 (the code does not do this).  With [window_size = 4 > overlap = 3]
    on the text [". abcdef"] the windower emits the window [0..2], then a
    window that starts at [-1] with empty text, then the window [0..2]
    again, and so on: no list of windows is ever returned, and no window
    reaches past offset 3 of the 8 characters. *)
Theorem window_no_coverage :
  let text := py ". abcdef" in
  (4 > 3 /\ 3 >= 0) /\
  window_step text 4 3 0 = LoopNext (mkWindow (py ". ") 0 2) (-1) /\
  window_step text 4 3 (-1) = LoopNext (mkWindow [] (-1) 3) 0 /\
  forall fuel, window_text_with_overlap fuel text 4 3 = None.
Proof.
  intros text. split; [lia|].
  assert (H1 : window_step text 4 3 0 = LoopNext (mkWindow (py ". ") 0 2) (-1))
    by (vm_compute; reflexivity).
  assert (H2 : window_step text 4 3 (-1) = LoopNext (mkWindow [] (-1) 3) 0)
    by (vm_compute; reflexivity).
  split; [exact H1|]. split; [exact H2|].
  intros fuel. unfold window_text_with_overlap.
  replace (len text <=? 4) with false by (vm_compute; reflexivity).
  exact (proj1 (window_loop_cycle2 _ _ _ _ _ _ _ H1 H2 fuel [])).
Qed.

(** The same happens with an ordinary sentence and [overlap = 2]. *)
Example window_stuck_sentence :
  forall fuel,
    window_text_with_overlap fuel (py "One. Two three four") 8 2 = None.
Proof.
  intros fuel. unfold window_text_with_overlap.
  replace (len (py "One. Two three four") <=? 8) with false
    by (vm_compute; reflexivity).
  replace (window_loop fuel (py "One. Two three four") 8 2 0 [])
    with (match fuel with O => None | S f =>
            window_loop f (py "One. Two three four") 8 2 3
              [mkWindow (py "One. ") 0 5] end : option (list Window)).
  - destruct fuel; [reflexivity|].
    eapply window_loop_stuck. vm_compute. reflexivity.
  - destruct fuel; reflexivity.
Qed.

(** ** Windower: what does hold *)

Lemma ws_run_le s : (ws_run s <= length s)%nat.
Proof.
  induction s as [|c r IH]; simpl; [lia|]. destruct (is_space c); lia.
Qed.

(** Every match is at least two characters long and ends within the
    string. *)
Lemma sentence_ends_from_bounds s : forall pos e,
  e ∈ sentence_ends_from pos s ->
  Z.of_nat pos + 2 <= e <= Z.of_nat pos + len s.
Proof.
  unfold len. induction s as [|c r IH]; intros pos e; simpl.
  - by intros ?%elem_of_nil.
  - pose proof (ws_run_le r).
    destruct (is_sentence_punct c && negb (ws_run r =? 0)%nat) eqn:E.
    + apply andb_true_iff in E as [_ E]. apply negb_true_iff in E.
      apply Nat.eqb_neq in E.
      intros [->|H']%elem_of_cons; [lia|]. apply IH in H'. lia.
    + intros H'. apply IH in H'. lia.
Qed.

Lemma slice_index_bounds n i : 0 <= n -> 0 <= slice_index n i <= n.
Proof. unfold slice_index. destruct (i <? 0) eqn:E; lia. Qed.

Lemma len_py_slice {A} (s : list A) i j :
  len (py_slice s i j)
  <= Z.max 0 (slice_index (len s) j - slice_index (len s) i).
Proof.
  unfold py_slice, len. rewrite length_take. lia.
Qed.

(** A window never ends past the end of the text. *)
Lemma window_end_le text window_size start :
  start <= len text -> window_end text window_size start <= len text.
Proof.
  intros Hs. unfold window_end.
  set (end_ := Z.min (start + window_size) (len text)).
  destruct (end_ <? len text) eqn:E; [|lia].
  set (ss := Z.max (end_ - 200) start).
  destruct (last _) as [e|] eqn:El; [|lia].
  apply last_Some_elem_of, sentence_ends_from_bounds in El.
  pose proof (len_py_slice text ss end_) as Hl.
  pose proof (len_nonneg text) as Hn.
  pose proof (slice_index_bounds (len text) ss Hn).
  pose proof (slice_index_bounds (len text) end_ Hn).
  assert (slice_index (len text) ss = ss \/ ss < 0) as [Hss|Hss].
  { unfold slice_index. destruct (ss <? 0) eqn:E'; lia. }
  - lia.
  - lia.
Qed.

(** A window that is cut back loses fewer than 200 characters. *)
Lemma window_end_ge text window_size start :
  len text <= window_end text window_size start \/
  start + window_size - 198 <= window_end text window_size start.
Proof.
  unfold window_end.
  set (end_ := Z.min (start + window_size) (len text)).
  destruct (end_ <? len text) eqn:E; [|lia].
  destruct (last _) as [e|] eqn:El; [|lia].
  apply last_Some_elem_of, sentence_ends_from_bounds in El. lia.
Qed.

(** With more than 198 characters between [overlap] and [window_size] the
    loop does advance. *)
Lemma window_step_advances text window_size overlap start w start' :
  overlap + 198 < window_size ->
  window_step text window_size overlap start = LoopNext w start' ->
  start < start'.
Proof.
  intros Hgap. unfold window_step.
  destruct (start <? len text) eqn:Es; [|done].
  destruct (len text <=? _) eqn:Ee; [done|]. intros [= _ <-].
  pose proof (window_end_ge text window_size start).
  pose proof (window_end_le text window_size start). lia.
Qed.

Lemma window_loop_returns text window_size overlap :
  overlap + 198 < window_size ->
  forall fuel start windows,
    Z.max 0 (len text - start) < Z.of_nat fuel ->
    is_Some (window_loop fuel text window_size overlap start windows).
Proof.
  intros Hgap. induction fuel as [|fuel IH]; intros start windows Hf; [lia|].
  simpl. destruct (window_step _ _ _ _) as [|w|w start'] eqn:E; [done..|].
  apply IH. pose proof (window_step_advances _ _ _ _ _ _ Hgap E).
  unfold window_step in E. destruct (start <? len text) eqn:Es; [|done]. lia.
Qed.

Lemma adjacent_ok_snoc overlap ws wl w :
  adjacent_ok overlap ws -> last ws = Some wl ->
  w_start w <= w_end wl -> w_end wl - w_start w <= overlap ->
  adjacent_ok overlap (ws ++ [w]).
Proof.
  intros Hok Hl H1 H2. induction ws as [|a ws IH]; [done|].
  destruct ws as [|b ws].
  - injection Hl as ->. simpl. auto.
  - destruct Hok as [Hab Hok]. split; [exact Hab|]. apply IH; auto.
Qed.

(** Whatever the loop returns covers the text. *)
Lemma window_loop_covers text window_size overlap :
  0 <= overlap ->
  forall fuel start windows result,
    window_inv text overlap start windows ->
    window_loop fuel text window_size overlap start windows = Some result ->
    covers text overlap result.
Proof.
  intros Hov. induction fuel as [|fuel IH]; intros start windows result
    (Hlt & Hok & Hshape) Hrun; [done|].
  simpl in Hrun. unfold window_step in Hrun.
  destruct (start <? len text) eqn:Es; [|lia].
  set (end_ := window_end text window_size start) in *.
  set (w := mkWindow (py_slice text start end_) start end_) in *.
  assert (Hend : end_ <= len text) by (apply window_end_le; lia).
  assert (Hok' : adjacent_ok overlap (windows ++ [w])).
  { destruct Hshape as [[-> ->]|(wl & Hl & -> & _)]; [by simpl|].
    eapply adjacent_ok_snoc; eauto; simpl; lia. }
  assert (Hhead : w_start <$> head (windows ++ [w]) = Some 0).
  { destruct Hshape as [[-> ->]|(wl & Hl & -> & Hh)]; [done|].
    destruct windows; [done|]. exact Hh. }
  destruct (len text <=? end_) eqn:Ee.
  - injection Hrun as <-. split; [done|]. split; [|done].
    rewrite last_snoc. simpl. f_equal. lia.
  - eapply IH; [|exact Hrun]. split; [lia|]. split; [done|].
    right. exists w. by rewrite last_snoc.
Qed.

(** X3.  Partial correctness of the windower: a returned list of windows
    starts at 0, ends at [len(text)], and each window starts at or before
    the end of the previous one, sharing at most [overlap] characters with
    it. *)
Lemma window_covers_if_returned fuel text window_size overlap windows :
  0 <= overlap -> 0 <= window_size ->
  window_text_with_overlap fuel text window_size overlap = Some windows ->
  covers text overlap windows.
Proof.
  intros Hov Hws. unfold window_text_with_overlap.
  destruct (len text <=? window_size) eqn:E.
  - intros [= <-]. by repeat split.
  - apply window_loop_covers; [done|]. split; [lia|]. split; [done|]. by left.
Qed.

(** X2.  When [overlap + 198 < window_size] (as with the defaults 5000 and
    500), [start] increases on every iteration and the windower returns,
    within [len(text) + 1] iterations, windows that cover the text. *)
Lemma window_covers_wide text window_size overlap :
  0 <= overlap -> overlap + 198 < window_size ->
  exists windows,
    window_text_with_overlap (S (length text)) text window_size overlap
    = Some windows /\
    covers text overlap windows.
Proof.
  intros Hov Hgap.
  destruct (window_text_with_overlap (S (length text)) text window_size
              overlap) as [windows|] eqn:E.
  - exists windows. split; [done|].
    unfold window_text_with_overlap in E.
    destruct (len text <=? window_size) eqn:El.
    + injection E as <-. by repeat split.
    + eapply window_loop_covers; [done| |exact E].
      split; [lia|]. split; [done|]. by left.
  - exfalso. unfold window_text_with_overlap in E.
    destruct (len text <=? window_size); [done|].
    destruct (window_loop_returns text window_size overlap Hgap
                (S (length text)) 0 []) as [r Hr]; [unfold len; lia|].
    congruence.
Qed.

(** ** Section Detector Adapter *)

Lemma total_len_nonneg chunks : 0 <= total_len chunks.
Proof.
  induction chunks as [|c r IH]; simpl; [lia|].
  pose proof (len_nonneg c). lia.
Qed.

Lemma span_within_mono b b' s : b <= b' -> span_within b s -> span_within b' s.
Proof.
  intros Hb (cs & ce & H1 & H2 & H3 & H4 & H5).
  exists cs, ce. repeat split; auto; lia.
Qed.

Lemma adjust_section_span off idx (chunk : pystr) s s' :
  0 <= off ->
  offsets_ordered (len chunk) s ->
  adjust_section off idx s = Some s' ->
  span_within (off + len chunk) s'.
Proof.
  intros Hoff Hs. unfold adjust_section.
  destruct (sec_char_start s) as [cs|] eqn:Ecs; [|discriminate].
  destruct (sec_char_end s) as [ce|] eqn:Ece; [|discriminate].
  intros [= <-]. destruct (Hs cs ce Ecs Ece) as (? & ? & ?).
  exists (cs + off), (ce + off). simpl. repeat split; auto; lia.
Qed.

Section DetectorFacts.
Context (api : option pystr -> nat -> pystr -> pystr)
        (ej : pystr -> Reply) (model : option pystr).

(** The loop only ever appends. *)
Lemma detect_loop_prefix n rest : forall idx off all,
  exists more, detect_loop api ej model n idx rest off all = all ++ more.
Proof.
  induction rest as [|chunk rest IH]; intros idx off all; simpl.
  - exists []. by rewrite app_nil_r.
  - edestruct IH as [more ->]. rewrite <- app_assoc. eauto.
Qed.

(** Replies that are not arrays add nothing. *)
Lemma detect_loop_no_arrays n rest : forall idx off all,
  (forall k chunk, ej (api model k chunk) = ReplyOther) ->
  detect_loop api ej model n idx rest off all = all.
Proof.
  induction rest as [|chunk rest IH]; intros idx off all Hno; simpl.
  - reflexivity.
  - rewrite Hno. simpl. rewrite app_nil_r. by apply IH.
Qed.

(** Every collected section lies within the chunks seen so far. *)
Lemma detect_loop_spans n bound rest : forall idx off all,
  0 <= off ->
  off + total_len rest <= bound ->
  (forall s, s ∈ all -> span_within bound s) ->
  (forall j chunk s,
      rest !! j = Some chunk ->
      s ∈ reply_sections (ej (api model (idx + j)%nat chunk)) ->
      offsets_ordered (len chunk) s) ->
  forall s, s ∈ detect_loop api ej model n idx rest off all ->
            span_within bound s.
Proof.
  induction rest as [|chunk rest IH]; intros idx off all Hoff Hb Hall Hrep;
    simpl.
  - auto.
  - simpl in Hb. pose proof (len_nonneg chunk) as Hc.
    pose proof (total_len_nonneg rest) as Hr.
    apply IH.
    + destruct (_ <? _); lia.
    + destruct (_ <? _); lia.
    + intros s [Hin|Hin]%elem_of_app; [by apply Hall|].
      apply list_elem_of_omap in Hin as (s0 & Hs0 & Hadj).
      assert (Hsp : span_within (off + len chunk) s).
      { eapply adjust_section_span; [done| |exact Hadj].
        apply (Hrep 0%nat); [done|].
        rewrite Nat.add_0_r. unfold reply_sections.
        destruct (ej _); [done|]. by apply elem_of_nil in Hs0. }
      eapply span_within_mono; [|exact Hsp]. lia.
    + intros j c s Hj Hs. apply (Hrep (S j)); [done|].
      by replace (idx + S j)%nat with (S idx + j)%nat by lia.
Qed.
End DetectorFacts.

Lemma whole_document_span text : span_within (len text) (whole_document_section text).
Proof.
  exists 0, (len text). pose proof (len_nonneg text).
  repeat split; auto; lia.
Qed.

(** C1 (the code does not do this).  The running offset adds the full
    length of every earlier sub-chunk, although the sub-chunks are cut with
    an overlap and the comment in the loop says the offset accounts for it.
    On the document ["abcdef"], cut into the sub-chunks ["abcd"] (offsets
    0..4) and ["cdef"] (offsets 2..6), with the reply
    [{char_start: 0, char_end: 4}] for each -- within the sub-chunk and
    ordered -- the section of the second sub-chunk is returned as
    [{char_start: 4, char_end: 8}]: it ends past the end of the
    six-character document (its place in the document is 2..6). *)
Theorem detect_offsets_overlap_overflow :
  let text := py "abcdef" in
  let chunks := [py "abcd"; py "cdef"] in
  let reply := [mkSection (Some (py "S")) (Some 1) (Some 0) (Some 4) None] in
  let result :=
    detect_semantic_sections (fun _ _ _ => chunks) (fun _ _ chunk => chunk)
      (fun _ => ReplyArray reply) text None (Some 2) in
  (py_slice text 0 4 = py "abcd" /\ py_slice text 2 6 = py "cdef") /\
  (forall chunk s, chunk ∈ chunks -> s ∈ reply ->
                   offsets_ordered (len chunk) s) /\
  result
  = [mkSection (Some (py "S")) (Some 1) (Some 0) (Some 4) (Some 0%nat);
     mkSection (Some (py "S")) (Some 1) (Some 4) (Some 8) (Some 1%nat)] /\
  ~ (forall s, s ∈ result -> span_within (len text) s).
Proof.
  intros text chunks reply result.
  assert (Hres : result
    = [mkSection (Some (py "S")) (Some 1) (Some 0) (Some 4) (Some 0%nat);
       mkSection (Some (py "S")) (Some 1) (Some 4) (Some 8) (Some 1%nat)])
    by (vm_compute; reflexivity).
  split; [split; vm_compute; reflexivity|]. split; [|split; [exact Hres|]].
  - intros chunk s Hchunk ->%list_elem_of_singleton cs ce [= <-] [= <-].
    apply elem_of_cons in Hchunk as [->|Hchunk];
      [|apply list_elem_of_singleton in Hchunk as ->];
      vm_compute; repeat split; discriminate.
  - rewrite Hres. intros Hall.
    destruct (Hall (mkSection (Some (py "S")) (Some 1) (Some 4) (Some 8)
                      (Some 1%nat)))
      as (cs & ce & _ & [= <-] & _ & _ & Hle); [right; left|].
    vm_compute in Hle. done.
Qed.

(** Without overlap the invariant holds: if every oracle result has
    [0 <= char_start <= char_end <= len(sub-chunk)] for its window-local
    offsets, and the lengths of the sub-chunks add up to at most the length
    of the document, then every section the adapter returns has
    [0 <= char_start <= char_end <= len(document)]. *)
Theorem detect_offsets_global split api ej text model max_input_tokens :
  let chunks := detect_chunks split text model max_input_tokens in
  total_len chunks <= len text ->
  (forall k chunk s,
      chunks !! k = Some chunk ->
      s ∈ reply_sections (ej (api model k chunk)) ->
      offsets_ordered (len chunk) s) ->
  forall s,
    s ∈ detect_semantic_sections split api ej text model max_input_tokens ->
    span_within (len text) s.
Proof.
  intros chunks Htot Hrep s. unfold detect_semantic_sections. fold chunks.
  destruct (detect_loop api ej model (len chunks) 0 chunks 0 []) as [|s0 l]
    eqn:Eloop.
  - intros ->%list_elem_of_singleton. apply whole_document_span.
  - rewrite <- Eloop.
    apply (detect_loop_spans api ej model (len chunks) (len text)); auto.
    + lia.
    + intros ? []%elem_of_nil.
Qed.

Lemma detect_offsets_global_witness :
  span_within (len (py "abcde"))
    (mkSection (Some (py "A")) (Some 1) (Some 1) (Some 3) (Some 0%nat)).
Proof.
  apply (detect_offsets_global (fun _ _ _ => []) (fun _ _ _ => [])
           (fun _ => ReplyArray [mkSection (Some (py "A")) (Some 1) (Some 1)
                                   (Some 3) None])
           (py "abcde") None None).
  - vm_compute. discriminate.
  - intros k chunk s Hk Hs cs ce Hcs Hce.
    destruct k as [|k]; [|done]. injection Hk as <-.
    apply list_elem_of_singleton in Hs as ->.
    injection Hcs as <-. injection Hce as <-. vm_compute.
    repeat split; discriminate.
  - vm_compute. left.
Defined.

(** With [max_input_tokens] unset the document is the only sub-chunk. *)
Corollary detect_offsets_single_chunk split api ej text model :
  (forall s, s ∈ reply_sections (ej (api model 0%nat text)) ->
             offsets_ordered (len text) s) ->
  forall s, s ∈ detect_semantic_sections split api ej text model None ->
            span_within (len text) s.
Proof.
  intros Hrep s. unfold detect_semantic_sections. simpl.
  destruct (ej (api model 0%nat text)) as [l|] eqn:E; simpl.
  - destruct (omap _ l) eqn:El.
    + intros ->%list_elem_of_singleton. apply whole_document_span.
    + rewrite <- El. intros (s0 & Hs0 & Hadj)%list_elem_of_omap.
      replace (len text) with (0 + len text) by lia.
      eapply (adjust_section_span 0 0%nat text); [lia| |exact Hadj].
      apply Hrep. rewrite ?E. exact Hs0.
  - intros ->%list_elem_of_singleton. apply whole_document_span.
Qed.

(** C8.  The adapter never returns an empty list.  When no section was
    collected from the sub-chunks -- in particular when no response parses
    to an array -- it returns exactly one section: title
    ["Document Content"], level 1, spanning [0..len(text)]. *)
Theorem detect_never_empty split api ej text model max_input_tokens :
  let chunks := detect_chunks split text model max_input_tokens in
  let result :=
    detect_semantic_sections split api ej text model max_input_tokens in
  let whole :=
    mkSection (Some (py "Document Content")) (Some 1) (Some 0)
      (Some (len text)) None in
  result <> [] /\
  (detect_loop api ej model (len chunks) 0 chunks 0 [] = [] ->
   result = [whole]) /\
  ((forall k chunk, ej (api model k chunk) = ReplyOther) ->
   result = [whole]).
Proof.
  intros chunks result whole. subst result. unfold detect_semantic_sections.
  fold chunks. split; [|split].
  - by destruct (detect_loop _ _ _ _ _ _ _ _).
  - by intros ->.
  - intros Hno. by rewrite detect_loop_no_arrays.
Qed.

Lemma detect_never_empty_witness :
  detect_semantic_sections (fun _ _ _ => [py "ab"; py "bc"])
    (fun _ _ _ => py "not json") (fun _ => ReplyOther) (py "abc") None (Some 1)
  = [mkSection (Some (py "Document Content")) (Some 1) (Some 0) (Some 3) None].
Proof.
  apply (detect_never_empty (fun _ _ _ => [py "ab"; py "bc"])
           (fun _ _ _ => py "not json") (fun _ => ReplyOther) (py "abc") None
           (Some 1)).
  reflexivity.
Defined.

(** ** Section Reconciler *)

Lemma key_le_refl k : key_le k k = true.
Proof. unfold key_le. destruct k as [a b]; simpl. lia. Qed.

Lemma key_le_total a b : key_le a b = false -> key_le b a = true.
Proof. unfold key_le. destruct a, b; simpl. lia. Qed.

Lemma key_le_trans a b c :
  key_le a b = true -> key_le b c = true -> key_le a c = true.
Proof. unfold key_le. destruct a, b, c; simpl. lia. Qed.

Section SortFacts.
Context {A : Type}.
Implicit Types (x y : (Z * Z) * A) (l : list ((Z * Z) * A)).

Lemma insert_by_key_perm x l : insert_by_key x l ≡ₚ x :: l.
Proof.
  induction l as [|y r IH]; simpl; [done|].
  destruct (key_le x.1 y.1); [done|].
  rewrite IH. apply Permutation_swap.
Qed.

Lemma sort_by_key_perm l : sort_by_key l ≡ₚ l.
Proof.
  induction l as [|x r IH]; simpl; [done|].
  by rewrite insert_by_key_perm, IH.
Qed.

Lemma insert_by_key_sorted x l :
  StronglySorted keyed_le l -> StronglySorted keyed_le (insert_by_key x l).
Proof.
  induction l as [|y r IH]; simpl; intros Hs.
  - by repeat constructor.
  - apply StronglySorted_inv in Hs as [Hr Hy].
    destruct (key_le x.1 y.1) eqn:E.
    + constructor; [by constructor|]. constructor; [done|].
      eapply Forall_impl; [exact Hy|]. intros z Hz.
      unfold keyed_le in *. eauto using key_le_trans.
    + constructor; [auto|].
      rewrite insert_by_key_perm. constructor; [|done].
      by apply key_le_total.
Qed.

Lemma sort_by_key_sorted l : StronglySorted keyed_le (sort_by_key l).
Proof.
  induction l as [|x r IH]; simpl; [constructor|].
  by apply insert_by_key_sorted.
Qed.

(** Sorting a sorted list changes nothing. *)
Lemma sort_by_key_sorted_id l :
  StronglySorted keyed_le l -> sort_by_key l = l.
Proof.
  induction 1 as [|x r Hr IH Hx]; simpl; [done|].
  rewrite IH. destruct r as [|y r']; simpl; [done|].
  apply Forall_cons in Hx as [Hxy _]. unfold keyed_le in Hxy.
  by rewrite Hxy.
Qed.

(** Stability: elements that share a sort key keep their order. *)
Lemma insert_by_key_filter (Q : (Z * Z) * A -> Prop)
    `{!forall x, Decision (Q x)} x l :
  (forall y, y ∈ l -> Q x -> Q y -> y.1 = x.1) ->
  filter Q (insert_by_key x l) = filter Q (x :: l).
Proof.
  induction l as [|y r IH]; simpl; intros Hk; [done|].
  destruct (key_le x.1 y.1) eqn:E; [done|].
  rewrite filter_cons, IH by (intros; apply Hk; auto; by right).
  rewrite !(filter_cons _ x), !(filter_cons _ y).
  destruct (decide (Q y)) as [Hy|Hy], (decide (Q x)) as [Hx|Hx]; try done.
  assert (y.1 = x.1) as Heq by (apply Hk; auto; left).
  rewrite Heq, key_le_refl in E. done.
Qed.

Lemma sort_by_key_stable (Q : (Z * Z) * A -> Prop)
    `{!forall x, Decision (Q x)} l :
  (forall x y, x ∈ l -> y ∈ l -> Q x -> Q y -> x.1 = y.1) ->
  filter Q (sort_by_key l) = filter Q l.
Proof.
  induction l as [|x r IH]; simpl; intros Hk; [done|].
  rewrite insert_by_key_filter.
  - rewrite !filter_cons, IH; [done|].
    intros; apply Hk; auto; by right.
  - intros y Hy Hx HQy. apply Hk; auto; [right|left].
    by rewrite <- (sort_by_key_perm r).
Qed.
End SortFacts.

Lemma sort_key_of_position_key s x :
  position_key x = position_key s -> has_char_start s ->
  sort_key x = sort_key s.
Proof.
  unfold position_key, sort_key. intros H [c Hc]. rewrite Hc in *.
  destruct (sec_char_start x); simpl in *; congruence.
Qed.

Lemma decorate_tag s : has_char_start s -> decorate s = Some (tag s).
Proof.
  intros [c Hc]. unfold decorate, tag, sort_key. by rewrite Hc.
Qed.

Lemma mapM_decorate sections :
  Forall has_char_start sections ->
  mapM decorate sections = Some (tag <$> sections).
Proof.
  intros H. apply mapM_Some. apply Forall2_fmap_r, Forall_Forall2_diag.
  eapply Forall_impl; [exact H|]. apply decorate_tag.
Qed.

Lemma sorted_sections_Some sections :
  Forall has_char_start sections ->
  sorted_sections sections = Some ((sort_by_key (tag <$> sections)).*2).
Proof. intros H. unfold sorted_sections. by rewrite mapM_decorate. Qed.

Lemma sorted_sections_None sections :
  ~ Forall has_char_start sections -> sorted_sections sections = None.
Proof.
  intros H. unfold sorted_sections.
  destruct (mapM decorate sections) as [k|] eqn:E; [|done].
  exfalso. apply H.
  assert (Hs : is_Some (mapM decorate sections)) by eauto.
  apply mapM_is_Some in Hs. eapply Forall_impl; [exact Hs|].
  intros s [ks Hks]. unfold decorate, sort_key in Hks. simpl in Hks.
  unfold has_char_start. destruct (sec_char_start s); [eauto|done].
Qed.

Lemma snd_tag sections : (tag <$> sections).*2 = sections.
Proof.
  induction sections as [|s r IH]; simpl; [done|]. by f_equal.
Qed.

(** The sorted sections, tagged again, are the sorted tagged sections. *)
Lemma sort_tag_snd sections :
  tag <$> (sort_by_key (tag <$> sections)).*2 = sort_by_key (tag <$> sections).
Proof.
  assert (H : Forall (fun x => tag x.2 = x) (sort_by_key (tag <$> sections))).
  { rewrite sort_by_key_perm. apply Forall_fmap, Forall_forall. done. }
  induction H as [|x l Hx _ IH]; csimpl; [done|]. by rewrite Hx, IH.
Qed.

Lemma sorted_perm sections :
  (sort_by_key (tag <$> sections)).*2 ≡ₚ sections.
Proof. by rewrite sort_by_key_perm, snd_tag. Qed.

Lemma tag_le_section_le s1 s2 :
  has_char_start s1 -> has_char_start s2 ->
  keyed_le (tag s1) (tag s2) -> section_le s1 s2.
Proof.
  intros [c1 H1] [c2 H2]. unfold keyed_le, tag, sort_key, key_le.
  rewrite H1, H2. simpl. intros H. exists c1, c2. repeat split; auto. lia.
Qed.

Lemma section_le_tag_le s1 s2 :
  section_le s1 s2 -> keyed_le (tag s1) (tag s2).
Proof.
  intros (c1 & c2 & H1 & H2 & H). unfold keyed_le, tag, sort_key, key_le.
  rewrite H1, H2. simpl. lia.
Qed.

Lemma sorted_sections_sorted sections :
  Forall has_char_start sections ->
  StronglySorted section_le (sort_by_key (tag <$> sections)).*2.
Proof.
  intros Hcs.
  assert (Hall : Forall has_char_start (sort_by_key (tag <$> sections)).*2)
    by by rewrite sorted_perm.
  pose proof (sort_by_key_sorted (tag <$> sections)) as Hs.
  rewrite <- sort_tag_snd in Hs.
  induction ((sort_by_key (tag <$> sections)).*2) as [|s r IH]; [constructor|].
  simpl in Hs. apply StronglySorted_inv in Hs as [Hr Hx].
  apply Forall_cons in Hall as [Hs Hall].
  constructor; [auto|].
  rewrite Forall_fmap in Hx. rewrite Forall_forall in *.
  intros y Hy. apply tag_le_section_le; auto. by apply Hx.
Qed.

Lemma sorted_sections_stable s sections :
  Forall has_char_start sections ->
  filter (same_key s) (sort_by_key (tag <$> sections)).*2
  = filter (same_key s) sections.
Proof.
  intros Hcs.
  assert (Hf : forall l : list RawSection,
             filter (same_key s) l
             = (filter (fun x => same_key s x.2) (tag <$> l)).*2).
  { induction l as [|x l IH]; [done|]. csimpl.
    rewrite !filter_cons. simpl. destruct (decide (same_key s x)); csimpl;
      by rewrite IH. }
  rewrite Hf, sort_tag_snd, sort_by_key_stable, <- Hf; [done|].
  intros x y [x0 [-> Hx]]%list_elem_of_fmap [y0 [-> Hy]]%list_elem_of_fmap.
  unfold same_key. simpl. intros Hxs Hys. unfold tag. simpl. f_equal.
  rewrite Forall_forall in Hcs.
  apply sort_key_of_position_key; [congruence|auto].
Qed.

Lemma StronglySorted_sublist {A} (R : relation A) l k :
  l `sublist_of` k -> StronglySorted R k -> StronglySorted R l.
Proof.
  induction 1 as [|x l k Hlk IH|x l k Hlk IH]; intros Hs.
  - constructor.
  - apply StronglySorted_inv in Hs as [Hk Hx]. constructor; [auto|].
    rewrite Forall_forall in *. intros y Hy. apply Hx.
    by apply (sublist_subseteq _ _ Hlk).
  - apply StronglySorted_inv in Hs as [Hk _]. auto.
Qed.

(** The accumulator [merged] is only ever extended. *)
Lemma dedup_loop_acc l : forall seen merged,
  dedup_loop l seen merged = (merged ++.) <$> dedup_loop l seen [].
Proof.
  induction l as [|a l IH]; intros seen merged; simpl.
  - by rewrite app_nil_r.
  - destruct (position_key a) as [k|]; simpl; [|done].
    destruct (decide (k ∈ seen)); [apply IH|].
    rewrite IH, (IH _ [a]).
    destruct (dedup_loop l _ []); simpl; [|done]. by rewrite <- app_assoc.
Qed.

Lemma position_key_Some s : has_char_start s -> is_Some (position_key s).
Proof. intros [c Hc]. unfold position_key. rewrite Hc. simpl. eauto. Qed.

(** What the walk over the sorted sections keeps. *)
Lemma dedup_loop_spec l : forall seen,
  Forall has_char_start l ->
  exists out,
    dedup_loop l seen [] = Some out /\
    out `sublist_of` l /\
    NoDup (position_key <$> out) /\
    (forall s k, s ∈ out -> position_key s = Some k -> k ∉ seen) /\
    (forall s k, s ∈ l -> position_key s = Some k ->
                 k ∈ seen \/ Some k ∈ position_key <$> out) /\
    (forall s, s ∈ out -> head (filter (same_key s) l) = Some s).
Proof.
  induction l as [|a l IH]; intros seen Hcs.
  - exists []. simpl. split; [done|]. split; [constructor|].
    split; [constructor|]. split; [by intros ? ? ?%elem_of_nil|].
    split; [by intros ? ? ?%elem_of_nil|by intros ? ?%elem_of_nil].
  - apply Forall_cons in Hcs as [Ha Hcs].
    destruct (position_key_Some a Ha) as [k Hk]. simpl. rewrite Hk. simpl.
    destruct (decide (k ∈ seen)) as [Hin|Hnin].
    + destruct (IH seen Hcs) as (out & E & Hsub & Hnd & Hfresh & Hcov & Hfirst).
      exists out. rewrite E. repeat split; auto.
      * by constructor.
      * intros s k' [->|Hs]%elem_of_cons Hk'; [|eauto].
        left. congruence.
      * intros s Hs. rewrite filter_cons_False; [auto|].
        unfold same_key. intros Heq. rewrite Hk in Heq.
        by apply (Hfresh s k Hs).
    + rewrite dedup_loop_acc.
      destruct (IH ({[k]} ∪ seen) Hcs)
        as (out & E & Hsub & Hnd & Hfresh & Hcov & Hfirst).
      exists (a :: out). rewrite E. simpl. repeat split.
      * by constructor.
      * csimpl. apply NoDup_cons. split; [|done].
        rewrite Hk. intros (s & Hs & Hin)%list_elem_of_fmap.
        apply (Hfresh s k Hin); [done|]. set_solver.
      * intros s k' [->|Hs]%elem_of_cons Hk'; [congruence|].
        specialize (Hfresh s k' Hs Hk'). set_solver.
      * intros s k' [->|Hs]%elem_of_cons Hk'; csimpl.
        { right. rewrite <- Hk'. left. }
        destruct (Hcov s k' Hs Hk') as [Hin|Hin].
        { apply elem_of_union in Hin as [->%elem_of_singleton|Hin];
            [right; rewrite Hk; left|by left]. }
        right. by right.
      * intros s [->|Hs]%elem_of_cons.
        { by rewrite filter_cons_True. }
        rewrite filter_cons_False; [auto|].
        unfold same_key. intros Heq. rewrite Hk in Heq.
        apply (Hfresh s k Hs); [done|]. set_solver.
Qed.

(** A list without repeated keys passes through unchanged. *)
Lemma dedup_loop_NoDup l : forall seen,
  Forall has_char_start l ->
  NoDup (position_key <$> l) ->
  (forall s k, s ∈ l -> position_key s = Some k -> k ∉ seen) ->
  dedup_loop l seen [] = Some l.
Proof.
  induction l as [|a l IH]; intros seen Hcs Hnd Hfresh; [done|].
  apply Forall_cons in Hcs as [Ha Hcs]. csimpl in Hnd.
  apply NoDup_cons in Hnd as [Hna Hnd].
  destruct (position_key_Some a Ha) as [k Hk]. simpl. rewrite Hk. simpl.
  rewrite decide_False by (eapply Hfresh; [left|done]).
  rewrite dedup_loop_acc, IH; auto.
  intros s k' Hs Hk' [->%elem_of_singleton|Hin]%elem_of_union.
  - apply Hna. rewrite Hk, <- Hk'. by apply list_elem_of_fmap_2.
  - eapply Hfresh; [by right|done|done].
Qed.

(** The early return for an empty list agrees with the general path. *)
Lemma merge_unfold sections :
  merge_overlapping_sections sections
  = sorted_sections sections ≫= fun sorted => dedup_loop sorted ∅ [].
Proof. by destruct sections. Qed.

Lemma merge_some_has_char_start sections merged :
  merge_overlapping_sections sections = Some merged ->
  Forall has_char_start sections.
Proof.
  destruct sections as [|s r]; [constructor|].
  unfold merge_overlapping_sections. intros H.
  destruct (decide (Forall has_char_start (s :: r))) as [|Hn]; [done|].
  by rewrite (sorted_sections_None _ Hn) in H.
Qed.

(** On sections that all carry [char_start], the reconciler returns a
    sorted list without repeated keys, drawn from the input. *)
Lemma merge_shape sections :
  Forall has_char_start sections ->
  exists merged,
    merge_overlapping_sections sections = Some merged /\
    StronglySorted section_le merged /\
    NoDup (position_key <$> merged) /\
    merged ⊆+ sections.
Proof.
  intros Hcs.
  assert (Hsorted : Forall has_char_start (sort_by_key (tag <$> sections)).*2)
    by by rewrite sorted_perm.
  destruct (dedup_loop_spec _ ∅ Hsorted) as (out & E & Hsub & Hnd & _).
  exists out. rewrite merge_unfold, sorted_sections_Some by done.
  split; [done|]. split; [|split; [done|]].
  - eapply StronglySorted_sublist; [exact Hsub|].
    by apply sorted_sections_sorted.
  - etransitivity; [by apply sublist_submseteq|]. by rewrite sorted_perm.
Qed.

(** C5.  On sections that all carry [char_start], the reconciler returns
    the sections sorted by [char_start] ascending, ties broken by [level]
    ascending, without repeated keys: the result (1) is sorted; (2) holds no
    two sections with the same [(char_start, level, title)] key; (3) holds a
    section for the key of every input section, so sections that differ in
    a key component are all retained; (4) holds, for each key, the first
    input section with that key; and (5) holds nothing but input sections,
    none more often than the input does. *)
Theorem merge_sorted_first_occurrences sections :
  Forall has_char_start sections ->
  exists merged,
    merge_overlapping_sections sections = Some merged /\
    StronglySorted section_le merged /\
    NoDup (position_key <$> merged) /\
    (forall s, s ∈ sections -> position_key s ∈ position_key <$> merged) /\
    (forall s, s ∈ merged -> head (filter (same_key s) sections) = Some s) /\
    merged ⊆+ sections.
Proof.
  intros Hcs.
  assert (Hsorted : Forall has_char_start (sort_by_key (tag <$> sections)).*2)
    by by rewrite sorted_perm.
  destruct (dedup_loop_spec _ ∅ Hsorted)
    as (out & E & Hsub & Hnd & _ & Hcov & Hfirst).
  exists out. repeat split; auto.
  - by rewrite merge_unfold, sorted_sections_Some.
  - eapply StronglySorted_sublist; [exact Hsub|].
    by apply sorted_sections_sorted.
  - intros s Hs.
    rewrite Forall_forall in Hcs.
    destruct (position_key_Some s (Hcs s Hs)) as [k Hk]. rewrite Hk.
    destruct (Hcov s k) as [Hin|Hin]; auto; [|set_solver].
    by rewrite sorted_perm.
  - intros s Hs. rewrite <- (sorted_sections_stable s sections Hcs). auto.
  - etransitivity; [by apply sublist_submseteq|]. by rewrite sorted_perm.
Qed.

Example merge_sample :
  merge_overlapping_sections sample_sections
  = Some
    [mkSection (Some (py "Intro")) (Some 1) (Some 0) (Some 7) (Some 0%nat);
     mkSection (Some (py "A")) (Some 1) (Some 7) (Some 9) (Some 1%nat);
     mkSection (Some (py "B")) (Some 2) (Some 7) (Some 9) (Some 1%nat)].
Proof. vm_compute. reflexivity. Qed.

Lemma merge_sorted_first_occurrences_witness :
  exists merged,
    merge_overlapping_sections sample_sections = Some merged /\
    StronglySorted section_le merged /\
    NoDup (position_key <$> merged) /\
    (forall s, s ∈ sample_sections ->
               position_key s ∈ position_key <$> merged) /\
    (forall s, s ∈ merged ->
               head (filter (same_key s) sample_sections) = Some s) /\
    merged ⊆+ sample_sections.
Proof.
  apply (merge_sorted_first_occurrences sample_sections).
  unfold sample_sections. repeat (constructor; [by eexists|]). constructor.
Defined.

(** C6.  Reconciling the reconciler's output returns it unchanged (and an
    input on which the reconciler raises raises either way). *)
Theorem merge_idempotent sections :
  merge_overlapping_sections sections ≫= merge_overlapping_sections
  = merge_overlapping_sections sections.
Proof.
  destruct (merge_overlapping_sections sections) as [merged|] eqn:E; [|done].
  simpl.
  destruct (merge_shape sections (merge_some_has_char_start _ _ E))
    as (m & Hm & Hs & Hnd & Hsub).
  rewrite E in Hm. injection Hm as <-.
  assert (Hcs : Forall has_char_start merged).
  { apply merge_some_has_char_start in E. rewrite Forall_forall in *.
    intros s Hs'. apply E. eapply elem_of_submseteq; eauto. }
  rewrite merge_unfold, sorted_sections_Some by done. simpl.
  rewrite sort_by_key_sorted_id, snd_tag.
  - apply dedup_loop_NoDup; auto. intros ? ? _ _. set_solver.
  - eapply StronglySorted_fmap; [|exact Hs]. apply section_le_tag_le.
Qed.

(** ** [strip] *)

Lemma lstrip_spec s :
  exists pre,
    s = pre ++ lstrip s /\
    Forall (fun c => is_space c = true) pre /\
    (forall c, head (lstrip s) = Some c -> is_space c = false).
Proof.
  induction s as [|c r (pre & Heq & Hpre & Hhd)]; simpl.
  - exists []. by repeat split.
  - destruct (is_space c) eqn:E.
    + exists (c :: pre). simpl. rewrite <- Heq. repeat split; auto.
    + exists []. repeat split; auto. simpl. by intros ? [= <-].
Qed.

(** [strip] removes a run of whitespace at each end, and what is left
    neither starts nor ends with whitespace. *)
Lemma strip_spec s :
  exists pre post,
    s = pre ++ strip s ++ post /\
    Forall (fun c => is_space c = true) pre /\
    Forall (fun c => is_space c = true) post /\
    (forall c, head (strip s) = Some c -> is_space c = false) /\
    (forall c, last (strip s) = Some c -> is_space c = false).
Proof.
  destruct (lstrip_spec s) as (pre & Hs & Hpre & Hhd).
  destruct (lstrip_spec (rev (lstrip s))) as (q & Hq & Hqs & Hqh).
  assert (Ht : lstrip s = strip s ++ rev q).
  { unfold strip, rstrip. rewrite <- rev_app_distr, <- Hq.
    by rewrite rev_involutive. }
  exists pre, (rev q). repeat split; auto.
  - by rewrite <- Ht.
  - by apply Forall_rev.
  - intros c Hc. apply Hhd. rewrite Ht.
    destruct (strip s); [done|]. exact Hc.
  - intros c Hc. apply Hqh. unfold strip, rstrip in Hc.
    destruct (lstrip (rev (lstrip s))) as [|x l]; [done|].
    simpl in Hc. rewrite last_snoc in Hc. by injection Hc as <-.
Qed.

(** ** Section Materializer *)

Lemma extract_loop_lookup text sections rest : forall i0 j s,
  rest !! j = Some s ->
  extract_loop text sections i0 rest !! j
  = Some (extract_node text sections (i0 + j) s).
Proof.
  induction rest as [|x rest IH]; intros i0 j s Hj; [done|].
  destruct j as [|j]; simpl in *.
  - injection Hj as ->. by rewrite Nat.add_0_r.
  - rewrite (IH (S i0) j s Hj). do 2 f_equal. lia.
Qed.

(** The guard [i + 1 < len(sections)] is the existence of a next section. *)
Lemma section_end_next text sections i s :
  section_end text sections i s
  = match sections !! S i with
    | Some next =>
        default (default (len text) (sec_char_end s)) (sec_char_start next)
    | None => default (len text) (sec_char_end s)
    end.
Proof.
  unfold section_end. destruct (sections !! S i) as [next|] eqn:E.
  - destruct (_ <? _) eqn:E'; [done|].
    apply lookup_lt_Some in E. unfold len in E'. lia.
  - apply lookup_ge_None in E. unfold len.
    destruct (_ <? _) eqn:E'; [lia|done].
Qed.

(** C7.  The node for section [i] starts at the section's [char_start] (0
    if unset) and ends at the [char_start] of section [i+1] when there is a
    following section, else at its own [char_end], or at the end of the
    document if that is unset; its text is the slice of the document over
    that span, stripped of surrounding whitespace.  (A following section
    without [char_start] counts as no following section.) *)
Theorem extract_section_span text sections i s :
  sections !! i = Some s ->
  exists node,
    extract_section_text text sections !! i = Some node /\
    let start := default 0 (sec_char_start s) in
    let own_end := default (len text) (sec_char_end s) in
    let end_ :=
      match sections !! S i with
      | Some next => default own_end (sec_char_start next)
      | None => own_end
      end in
    cand_char_start node = start /\
    cand_char_end node = end_ /\
    cand_text node = strip (py_slice text start end_).
Proof.
  intros Hi. exists (extract_node text sections i s). split.
  - unfold extract_section_text.
    by rewrite (extract_loop_lookup _ _ _ 0%nat i s Hi).
  - simpl. rewrite section_end_next. done.
Qed.

Lemma extract_section_span_witness :
  exists node,
    extract_section_text (py "  One.  Two. ")
      [mkSection (Some (py "1")) (Some 1) (Some 0) (Some 5) None;
       mkSection (Some (py "2")) (Some 1) (Some 7) None None] !! 0%nat
    = Some node /\
    cand_char_start node = 0 /\ cand_char_end node = 7 /\
    cand_text node = py "One.".
Proof.
  destruct (extract_section_span (py "  One.  Two. ")
      [mkSection (Some (py "1")) (Some 1) (Some 0) (Some 5) None;
       mkSection (Some (py "2")) (Some 1) (Some 7) None None] 0%nat
      (mkSection (Some (py "1")) (Some 1) (Some 0) (Some 5) None))
    as (node & Hn & Hs & He & Ht); [reflexivity|].
  exists node. split; [exact Hn|]. split; [exact Hs|]. split; [exact He|].
  rewrite Ht. vm_compute. reflexivity.
Defined.

(** ** Tree Builder *)

Lemma pop_closed_subset stack lv e :
  e ∈ pop_closed stack lv -> e ∈ stack.
Proof.
  induction stack as [|[a l] stack IH]; simpl; [done|].
  destruct (lv <=? l); [|done]. intros H. right. auto.
Qed.

Lemma pop_closed_head stack lv p lp rest :
  pop_closed stack lv = (p, lp) :: rest -> lp < lv.
Proof.
  induction stack as [|[a l] stack IH]; simpl; [done|].
  destruct (lv <=? l) eqn:E; [auto|]. intros [= -> -> _]. lia.
Qed.

Lemma level_at_snoc node_list x a l :
  level_at node_list a = Some l -> level_at (node_list ++ [x]) a = Some l.
Proof.
  unfold level_at. intros H.
  destruct (node_list !! a) as [c|] eqn:E; [|done].
  by rewrite (lookup_app_l_Some _ _ _ _ E).
Qed.

Lemma deeper_snoc node_list x p c :
  deeper node_list p c -> deeper (node_list ++ [x]) p c.
Proof.
  intros (lp & lc & H1 & H2 & H). exists lp, lc.
  eauto using level_at_snoc.
Qed.

Lemma deeper_trans node_list p c d :
  deeper node_list p c -> deeper node_list c d -> deeper node_list p d.
Proof.
  intros (lp & lc & H1 & H2 & H) (lc' & ld & H3 & H4 & H').
  assert (lc = lc') as -> by congruence.
  exists lp, ld. repeat split; auto. lia.
Qed.

Lemma children_snoc_leaf store n p :
  node_nodes n = Some [] ->
  children (store ++ [n]) p = children store p.
Proof.
  intros Hn. unfold children.
  destruct (decide (p < length store)%nat) as [Hlt|Hge].
  - by rewrite lookup_app_l.
  - rewrite (lookup_ge_None_2 store) by lia.
    destruct (decide (p = length store)) as [->|Hne].
    + rewrite list_lookup_middle by done. by rewrite Hn.
    + rewrite lookup_ge_None_2; [done|]. rewrite length_app. simpl. lia.
Qed.

Lemma children_alter_append store q ref p c :
  c ∈ children (alter (append_child ref) q store) p ->
  c ∈ children store p \/ (p = q /\ c = ref).
Proof.
  unfold children. destruct (decide (p = q)) as [->|Hne].
  - rewrite list_lookup_alter_eq. destruct (store !! q) as [n|]; simpl; [|auto].
    intros [Hc|Hc%list_elem_of_singleton]%elem_of_app; auto.
  - rewrite list_lookup_alter_ne by done. auto.
Qed.

Lemma build_inv_init : build_inv [] (mkBuild [] [] [] 1).
Proof.
  split; simpl; try done.
  - by intros ? ? ?%elem_of_nil.
  - intros p c. unfold children. rewrite lookup_nil. by intros ?%elem_of_nil.
Qed.

Lemma build_inv_step done st node :
  build_inv done st -> build_inv (done ++ [node]) (build_step st node).
Proof.
  intros [Hlen Hstack Hedges Hnodes].
  set (tn := mkNode (cand_title node)
               (Some (zfill 4 (str_of_Z (bs_node_counter st))))
               (Some (cand_text node)) (cand_char_start node)
               (cand_char_end node) (Some []) None None).
  assert (Hnew : level_at (done ++ [node]) (length (bs_store st))
                 = Some (cand_level node)).
  { unfold level_at. rewrite Hlen, list_lookup_middle; done. }
  assert (Hpop : forall a lv, (a, lv) ∈ pop_closed (bs_stack st) (cand_level node)
                   -> level_at (done ++ [node]) a = Some lv).
  { intros a lv H. apply level_at_snoc, Hstack.
    by eapply pop_closed_subset. }
  assert (Hold : forall p c, c ∈ children (bs_store st ++ [tn]) p ->
                   deeper (done ++ [node]) p c).
  { intros p c. rewrite children_snoc_leaf by done.
    intros H. by apply deeper_snoc, Hedges. }
  assert (Hdata : forall a n, (bs_store st ++ [tn]) !! a = Some n ->
                    exists cand, (done ++ [node]) !! a = Some cand /\
                                 built_from cand n).
  { intros a n [[_ Ha]|[Ha <-]]%lookup_snoc_Some.
    - destruct (Hnodes a n Ha) as (cand & Hc & Hb). exists cand.
      split; [|done]. by apply lookup_app_l_Some.
    - exists node. rewrite Ha, Hlen, list_lookup_middle by done.
      split; [done|]. by repeat split. }
  unfold build_step. fold tn.
  destruct (pop_closed (bs_stack st) (cand_level node)) as [|[parent pl] below]
    eqn:Epop; split; simpl.
  - rewrite !length_app. simpl. lia.
  - intros a lv [= -> ->]%list_elem_of_singleton. done.
  - exact Hold.
  - exact Hdata.
  - rewrite length_alter, !length_app. simpl. lia.
  - intros a lv [[= -> ->]|H]%elem_of_cons; [done|]. by apply Hpop.
  - intros p c [H|[-> ->]]%children_alter_append; [by apply Hold|].
    exists pl, (cand_level node). split; [apply Hpop; left|].
    split; [done|]. by eapply pop_closed_head.
  - intros a n. rewrite list_lookup_alter.
    destruct (decide (parent = a)) as [->|Hne]; [|apply Hdata].
    destruct ((bs_store st ++ [tn]) !! a) as [n0|] eqn:E; [|done].
    simpl. intros [= <-]. destruct (Hdata a n0 E) as (cand & Hc & Hb).
    exists cand. split; [done|]. exact Hb.
Qed.

Lemma build_inv_fold todo : forall done st,
  build_inv done st -> build_inv (done ++ todo) (fold_left build_step todo st).
Proof.
  induction todo as [|node todo IH]; intros done st Hinv; simpl.
  - by rewrite app_nil_r.
  - replace (done ++ node :: todo) with ((done ++ [node]) ++ todo)
      by by rewrite <- app_assoc.
    by apply IH, build_inv_step.
Qed.

Lemma build_tree_inv node_list :
  let s := build_tree_from_txt_nodes node_list in
  build_inv node_list (mkBuild (st_store s) [] (st_roots s) 0).
Proof.
  destruct node_list as [|c r] eqn:E.
  - simpl. destruct build_inv_init. by split.
  - rewrite <- E. unfold build_tree_from_txt_nodes.
    destruct (build_inv_fold node_list [] _ build_inv_init) as [H1 H2 H3 H4].
    rewrite E at 1. simpl. rewrite E in *. split; simpl; auto.
    by intros ? ? ?%elem_of_nil.
Qed.

(** C4.  In the built structure there is one node per candidate, each
    built from the candidate at its address; every child of a node has a
    source level strictly greater than the node's own, and so has every
    descendant. *)
Theorem build_children_deeper node_list :
  let store := st_store (build_tree_from_txt_nodes node_list) in
  length store = length node_list /\
  (forall a n, store !! a = Some n ->
     exists cand, node_list !! a = Some cand /\ built_from cand n) /\
  (forall p c, c ∈ children store p -> deeper node_list p c) /\
  (forall p d, descendant store p d -> deeper node_list p d).
Proof.
  intros store. destruct (build_tree_inv node_list) as [H1 _ H3 H4].
  simpl in *. fold store in H1, H3, H4.
  repeat split; auto.
  induction 1 as [p c Hc|p c d Hc _ IH]; [auto|].
  eapply deeper_trans; eauto.
Qed.

Lemma build_children_deeper_witness : deeper sample_outline 0 1.
Proof.
  destruct (build_children_deeper sample_outline) as (_ & _ & Hc & _).
  apply Hc. vm_compute. left.
Defined.

Example build_sample_outline :
  let s := build_tree_from_txt_nodes sample_outline in
  st_roots s = [0; 3]%nat /\
  children (st_store s) 0 = [1; 2]%nat /\
  children (st_store s) 3 = [4]%nat /\
  (node_id <$> st_store s)
  = [Some (py "0001"); Some (py "0002"); Some (py "0003");
     Some (py "0004"); Some (py "0005")].
Proof. vm_compute. repeat split; reflexivity. Qed.

(** ** Summary Orchestrator *)

Lemma oracle_calls_lookup tasks k n :
  (k, n) ∈ oracle_calls tasks -> tasks !! k = Some (AskOracle n).
Proof.
  unfold oracle_calls. intros ([i t] & Hit & Hcall)%list_elem_of_omap.
  apply elem_of_lookup_imap in Hit as (j & t' & [= -> ->] & Ht').
  simpl in Hcall. destruct t' as [|n']; [done|]. by injection Hcall as -> ->.
Qed.

Lemma live_nodes_elem store refs a n :
  (a, n) ∈ live_nodes store refs <-> a ∈ refs /\ store !! a = Some n.
Proof.
  unfold live_nodes. rewrite list_elem_of_omap. split.
  - intros (a' & Ha' & H). destruct (store !! a') as [n'|] eqn:E; [|done].
    simpl in H. by injection H as -> ->.
  - intros [Ha Hn]. exists a. by rewrite Hn.
Qed.

Lemma is_leaf_write_summary t n : is_leaf (write_summary t n) = is_leaf n.
Proof. unfold write_summary, is_leaf. by destruct (node_nodes n) as [[|]|]. Qed.

Lemma written_write_summary t n : written t (write_summary t n).
Proof.
  unfold written. rewrite is_leaf_write_summary. unfold write_summary.
  by destruct (is_leaf n).
Qed.

(** Writing back: the node at [a] ends up holding [text] when every write
    to [a] writes [text] and there is at least one. *)
Lemma write_back_written a text pairs : forall store n0,
  store !! a = Some n0 ->
  (forall p, p ∈ pairs -> p.1.1 = a -> p.2 = text) ->
  exists n',
    write_back store pairs !! a = Some n' /\
    is_leaf n' = is_leaf n0 /\
    ((written text n0 \/ exists p, p ∈ pairs /\ p.1.1 = a) -> written text n').
Proof.
  induction pairs as [|p pairs IH]; intros store n0 Hn0 Hall; simpl.
  - exists n0. repeat split; auto. intros [?|(p & []%elem_of_nil & _)]. done.
  - destruct (decide (p.1.1 = a)) as [Hp|Hp].
    + destruct (IH (alter (write_summary p.2) p.1.1 store)
                  (write_summary text n0)) as (n' & Hn' & Hleaf & Hw).
      * rewrite Hp, list_lookup_alter_eq, Hn0. simpl.
        by rewrite (Hall p) by (auto; left).
      * intros q Hq. apply Hall. by right.
      * exists n'. split; [done|]. rewrite Hleaf, is_leaf_write_summary.
        split; [done|]. intros _. apply Hw. left. apply written_write_summary.
    + destruct (IH (alter (write_summary p.2) p.1.1 store) n0)
        as (n' & Hn' & Hleaf & Hw).
      * by rewrite list_lookup_alter_ne.
      * intros q Hq. apply Hall. by right.
      * exists n'. repeat split; auto. intros [H|(q & Hq & Hqa)]; apply Hw; auto.
        apply elem_of_cons in Hq as [->|Hq]; [done|]. right. eauto.
Qed.

Section SummaryFacts.
Context (count_tokens : pystr -> option pystr -> Z)
        (gen : option pystr -> option Z -> nat -> TreeNode -> pystr)
        (s2l : Structure -> list nat).

Lemma get_node_summary_txt_below node thr model :
  count_tokens (default [] (node_text node)) model < thr ->
  get_node_summary_txt count_tokens node thr model
  = Immediate (default [] (node_text node)).
Proof.
  intros H. unfold get_node_summary_txt.
  destruct (_ <? _) eqn:E; [done|lia].
Qed.

Lemma get_node_summary_txt_ask node thr model n :
  get_node_summary_txt count_tokens node thr model = AskOracle n ->
  n = node /\ thr <= count_tokens (default [] (node_text node)) model.
Proof.
  unfold get_node_summary_txt. destruct (_ <? _) eqn:E; [done|].
  intros [= <-]. split; [done|lia].
Qed.

(** The summary orchestrator, for one node below the threshold. *)
Lemma summaries_below_threshold (s : Structure) thr model mit a node :
  a ∈ s2l s ->
  st_store s !! a = Some node ->
  count_tokens (default [] (node_text node)) model < thr ->
  let text := default [] (node_text node) in
  let run := generate_summaries_for_txt_structure count_tokens gen s2l s
               thr model mit in
  get_node_summary_txt count_tokens node thr model = Immediate text /\
  (forall k n, (k, n) ∈ run.2 ->
     exists a', live_nodes (st_store s) (s2l s) !! k = Some (a', n) /\
                a' <> a /\
                thr <= count_tokens (default [] (node_text n)) model) /\
  exists node',
    st_store run.1 !! a = Some node' /\
    is_leaf node' = is_leaf node /\
    written text node'.
Proof.
  intros Ha Hnode Hlt text run.
  set (nodes := live_nodes (st_store s) (s2l s)).
  set (tasks := (fun n => get_node_summary_txt count_tokens n.2 thr model)
                  <$> nodes).
  split; [by apply get_node_summary_txt_below|]. split.
  - intros k n Hcall. apply oracle_calls_lookup in Hcall.
    fold nodes in Hcall. fold tasks in Hcall. unfold tasks in Hcall.
    rewrite list_lookup_fmap in Hcall.
    destruct (nodes !! k) as [[a' n']|] eqn:Ek; [|done].
    simpl in Hcall. injection Hcall as Hcall.
    apply get_node_summary_txt_ask in Hcall as [-> Hge].
    exists a'. split; [done|]. split; [|done]. intros ->.
    apply list_elem_of_lookup_2 in Ek. apply live_nodes_elem in Ek as [_ Ek].
    assert (n' = node) as -> by congruence. lia.
  - simpl.
    destruct (write_back_written a text
                (zip nodes (gather gen model mit tasks)) (st_store s) node)
      as (n' & Hn' & Hleaf & Hw); [done| |].
    + intros [[a' n'] t] Hp Hpa. simpl in Hpa. subst a'. simpl.
      apply elem_of_lookup_zip_with_1 in Hp
        as (k & x & y & [= <- <-] & Hx & Hy).
      pose proof (list_elem_of_lookup_2 _ _ _ Hx) as Hxn.
      apply live_nodes_elem in Hxn as [_ Hxn].
      assert (n' = node) as -> by congruence.
      unfold gather in Hy. rewrite list_lookup_imap in Hy.
      unfold tasks in Hy. rewrite list_lookup_fmap, Hx in Hy. simpl in Hy.
      rewrite get_node_summary_txt_below in Hy by done.
      by injection Hy as <-.
    + exists n'. split; [exact Hn'|]. split; [done|]. apply Hw. right.
      assert (Hin : (a, node) ∈ nodes) by by apply live_nodes_elem.
      apply list_elem_of_lookup_1 in Hin as [k Hk].
      assert (Hlen : length (gather gen model mit tasks) = length nodes).
      { unfold gather, tasks. by rewrite length_imap, length_fmap. }
      destruct (lookup_lt_is_Some_2 (gather gen model mit tasks) k)
        as [t Ht].
      { rewrite Hlen. by eapply lookup_lt_Some. }
      exists ((a, node), t). split; [|done].
      eapply (elem_of_lookup_zip_with_2 pair); eauto.
Qed.
End SummaryFacts.

(** C10.  For a node of the structure whose text counts fewer tokens than
    [summary_token_threshold]: its task is the text itself, decided without
    a request; no request made to the summarizer is for that node (every
    request is for another node, one at or above the threshold); and after
    the write-back the node holds its own text, in [summary] if it is a
    leaf and in [prefix_summary] otherwise. *)
Theorem summary_short_circuit count_tokens gen s2l (s : Structure)
    thr model mit a node :
  a ∈ s2l s ->
  st_store s !! a = Some node ->
  count_tokens (default [] (node_text node)) model < thr ->
  let text := default [] (node_text node) in
  let run := generate_summaries_for_txt_structure count_tokens gen s2l s
               thr model mit in
  get_node_summary_txt count_tokens node thr model = Immediate text /\
  (forall k n, (k, n) ∈ run.2 ->
     exists a', live_nodes (st_store s) (s2l s) !! k = Some (a', n) /\
                a' <> a /\
                thr <= count_tokens (default [] (node_text n)) model) /\
  exists node',
    st_store run.1 !! a = Some node' /\
    (if is_leaf node then node_summary node' = Some text
     else node_prefix_summary node' = Some text).
Proof.
  intros Ha Hnode Hlt text run.
  destruct (summaries_below_threshold count_tokens gen s2l s thr model mit
              a node Ha Hnode Hlt) as (H1 & H2 & n' & Hn' & Hleaf & Hw).
  split; [exact H1|]. split; [exact H2|].
  exists n'. split; [exact Hn'|]. unfold written in Hw.
  by rewrite Hleaf in Hw.
Qed.

Example summaries_sample :
  generate_summaries_for_txt_structure (fun t _ => len t)
    (fun _ _ _ _ => py "SUMMARY") (fun _ => [0; 1]%nat) sample_tree 10 None
    None
  = (mkStructure
       [mkNode (py "Top") (Some (py "0001")) (Some (py "short")) 0 5
          (Some [1%nat]) None (Some (py "short"));
        mkNode (py "Sub") (Some (py "0002")) (Some (py "a much longer text"))
          5 23 (Some []) (Some (py "SUMMARY")) None]
       [0%nat],
     [(1%nat,
       mkNode (py "Sub") (Some (py "0002")) (Some (py "a much longer text"))
         5 23 (Some []) None None)]).
Proof. vm_compute. reflexivity. Qed.

Lemma summary_short_circuit_witness :
  exists node',
    st_store
      (generate_summaries_for_txt_structure (fun t _ => len t)
         (fun _ _ _ _ => py "SUMMARY") (fun _ => [0; 1]%nat) sample_tree 10
         None None).1 !! 0%nat = Some node' /\
    node_prefix_summary node' = Some (py "short").
Proof.
  destruct (summary_short_circuit (fun t _ => len t)
              (fun _ _ _ _ => py "SUMMARY") (fun _ => [0; 1]%nat) sample_tree
              10 None None 0%nat
              (mkNode (py "Top") (Some (py "0001")) (Some (py "short")) 0 5
                 (Some [1%nat]) None None))
    as (_ & _ & node' & Hn & Hw).
  - left.
  - reflexivity.
  - vm_compute. reflexivity.
  - exists node'. split; [exact Hn|exact Hw].
Defined.

(** ** The pipeline: [txt_to_tree] *)

Lemma adjust_section_has_start off idx s s' :
  adjust_section off idx s = Some s' -> has_char_start s'.
Proof.
  unfold adjust_section.
  destruct (sec_char_start s), (sec_char_end s); try done.
  intros [= <-]. by eexists.
Qed.

Lemma detect_loop_has_start api ej model n rest : forall idx off all,
  Forall has_char_start all ->
  Forall has_char_start (detect_loop api ej model n idx rest off all).
Proof.
  induction rest as [|chunk rest IH]; intros idx off all Hall; simpl; [done|].
  apply IH, Forall_app. split; [done|].
  apply Forall_forall. intros s (s0 & _ & Hs)%list_elem_of_omap.
  by eapply adjust_section_has_start.
Qed.

(** X7.  The reconciler does not raise on what the detector returns: every
    section the adapter passes on carries [char_start]. *)
Lemma merge_detected_total split api ej text model max_input_tokens :
  is_Some (merge_overlapping_sections
             (detect_semantic_sections split api ej text model
                max_input_tokens)).
Proof.
  assert (H : Forall has_char_start
                (detect_semantic_sections split api ej text model
                   max_input_tokens)).
  { unfold detect_semantic_sections.
    destruct (detect_loop _ _ _ _ _ _ _ _) eqn:E.
    - repeat constructor. by eexists.
    - rewrite <- E. apply detect_loop_has_start. constructor. }
  destruct (merge_shape _ H) as (merged & -> & _). by eexists.
Qed.

(** C3.  [window_size] and [overlap] reach nothing but the progress line
    that is printed: the character windower is not part of the pipeline, and
    two runs that differ only in these two arguments return the same
    document result. *)
Theorem txt_to_tree_ignores_window
    split api ej count_tokens gen s2l write_node_id format_structure
    clean describe read_file path_stem
    txt_path window_size overlap window_size' overlap'
    if_add_node_summary summary_token_threshold model
    if_add_doc_description if_add_node_text if_add_node_id max_input_tokens :
  (txt_to_tree split api ej count_tokens gen s2l write_node_id
     format_structure clean describe read_file path_stem
     txt_path window_size overlap if_add_node_summary
     summary_token_threshold model if_add_doc_description if_add_node_text
     if_add_node_id max_input_tokens).2
  = (txt_to_tree split api ej count_tokens gen s2l write_node_id
       format_structure clean describe read_file path_stem
       txt_path window_size' overlap' if_add_node_summary
       summary_token_threshold model if_add_doc_description if_add_node_text
       if_add_node_id max_input_tokens).2.
Proof.
  unfold txt_to_tree.
  destruct (yes if_add_node_summary), (yes if_add_doc_description);
    reflexivity.
Qed.

(** What is printed does depend on them. *)
Example txt_to_tree_prints_window :
  let run ws ov :=
    txt_to_tree (fun _ _ _ => []) (fun _ _ _ => []) (fun _ => ReplyOther)
      (fun t _ => len t) (fun _ _ _ _ => []) (fun _ => [])
      (fun s => s) (fun s _ => s) (fun s => s) (fun _ _ _ => [])
      (fun _ => py "Some text.") (fun p => p)
      (py "doc") ws ov (py "no") 200 None (py "no") (py "no") (py "no") None in
  (run 5000 500).1 !! 1%nat
  = Some (py "Using windowing approach with window_size=5000, overlap=500") /\
  (run 3 2).1 !! 1%nat
  = Some (py "Using windowing approach with window_size=3, overlap=2") /\
  (run 3 2).2
  = mkResult (py "doc") None
      (mkStructure
         [mkNode (py "Document Content") (Some (py "0001"))
            (Some (py "Some text.")) 0 10 (Some []) None None]
         [0%nat]).
Proof. vm_compute. repeat split; reflexivity. Qed.

(** * Further properties of the code *)

(** ** Windower *)

Lemma window_starts_succ text window_size overlap n : forall start,
  window_starts (S n) text window_size overlap start
  = window_starts n text window_size overlap start
    ≫= next_start text window_size overlap.
Proof.
  unfold next_start. induction n as [|n IH]; intros start.
  - simpl. by destruct (window_step _ _ _ _).
  - change (window_starts (S (S n)) text window_size overlap start)
      with (match window_step text window_size overlap start with
            | LoopNext _ s' => window_starts (S n) text window_size overlap s'
            | _ => None
            end).
    simpl. destruct (window_step _ _ _ start) as [| |w s']; [done..|].
    apply IH.
Qed.

(** X1.  With more than 198 characters between [overlap] and
    [window_size], the value of [start] at the head of the loop is strictly
    greater on every iteration than on the one before. *)
Theorem window_start_increases text window_size overlap n s s' :
  overlap + 198 < window_size ->
  window_starts n text window_size overlap 0 = Some s ->
  window_starts (S n) text window_size overlap 0 = Some s' ->
  s < s'.
Proof.
  intros Hgap Hn HS. rewrite window_starts_succ, Hn in HS. simpl in HS.
  unfold next_start in HS.
  destruct (window_step text window_size overlap s) as [| |w s''] eqn:E;
    try done.
  injection HS as ->. by eapply window_step_advances.
Qed.

Lemma window_start_increases_witness : 0 < 199.
Proof.
  apply (window_start_increases long_text 200 1 0 0 199).
  - lia.
  - reflexivity.
  - vm_compute. reflexivity.
Defined.

Lemma window_covers_wide_witness :
  exists windows,
    window_text_with_overlap (S (length long_text)) long_text 200 1
    = Some windows /\
    covers long_text 1 windows.
Proof. apply (window_covers_wide long_text 200 1); lia. Defined.

Lemma window_covers_if_returned_witness :
  covers (py "One. Two three four") 1
    [mkWindow (py "One. ") 0 5; mkWindow (py " Two thr") 4 12;
     mkWindow (py "ree four") 11 19].
Proof.
  apply (window_covers_if_returned 5 (py "One. Two three four") 8 1);
    [lia|lia|]. vm_compute. reflexivity.
Defined.

Lemma slice_index_id n i : 0 <= i <= n -> slice_index n i = i.
Proof. intros H. unfold slice_index. destruct (i <? 0) eqn:E; lia. Qed.

Lemma len_py_slice_exact {A} (s : list A) i j :
  0 <= i -> i <= j -> j <= len s -> len (py_slice s i j) = j - i.
Proof.
  intros Hi Hij Hj. unfold py_slice.
  rewrite !slice_index_id by lia. unfold len in *.
  rewrite length_take, length_drop. lia.
Qed.

(** From a [start] inside the text, a window of positive size is not empty
    and stays within [window_size] characters and within the text. *)
Lemma window_end_range text window_size start :
  0 <= start < len text -> 0 < window_size ->
  start < window_end text window_size start
  <= Z.min (start + window_size) (len text).
Proof.
  intros Hs Hws. unfold window_end.
  set (end_ := Z.min (start + window_size) (len text)).
  destruct (end_ <? len text) eqn:E; [|lia].
  set (ss := Z.max (end_ - 200) start).
  destruct (last _) as [e|] eqn:El; [|lia].
  apply last_Some_elem_of, sentence_ends_from_bounds in El.
  rewrite len_py_slice_exact in El by lia. lia.
Qed.

Lemma window_loop_well_formed text window_size overlap :
  0 <= overlap -> overlap + 198 < window_size ->
  forall fuel start windows result,
    0 <= start ->
    Forall (window_well_formed text window_size) windows ->
    window_loop fuel text window_size overlap start windows = Some result ->
    Forall (window_well_formed text window_size) result.
Proof.
  intros Hov Hgap. induction fuel as [|fuel IH];
    intros start windows result Hs Hall Hrun; [done|].
  simpl in Hrun. unfold window_step in Hrun.
  destruct (start <? len text) eqn:Es; [|by injection Hrun as <-].
  pose proof (window_end_range text window_size start) as Hr.
  pose proof (window_end_ge text window_size start) as Hge.
  set (end_ := window_end text window_size start) in *.
  assert (Hw : window_well_formed text window_size
                 (mkWindow (py_slice text start end_) start end_)).
  { unfold window_well_formed. simpl.
    rewrite len_py_slice_exact by lia. repeat split; lia. }
  assert (Hall' : Forall (window_well_formed text window_size)
                    (windows ++ [mkWindow (py_slice text start end_)
                                   start end_])).
  { apply Forall_app. split; [done|]. by constructor. }
  destruct (len text <=? end_) eqn:Ee.
  - by injection Hrun as <-.
  - eapply IH; [|exact Hall'|exact Hrun]. lia.
Qed.

(** X4.  With [0 <= overlap] and [overlap + 198 < window_size], every
    window returned lies within the text ([0 <= start <= end <= len(text)]),
    spans at most [window_size] characters, and its [text] is exactly the
    slice [text[start:end]], of [end - start] characters. *)
Theorem window_shapes_wide fuel text window_size overlap windows :
  0 <= overlap -> overlap + 198 < window_size ->
  window_text_with_overlap fuel text window_size overlap = Some windows ->
  Forall (window_well_formed text window_size) windows.
Proof.
  intros Hov Hgap. unfold window_text_with_overlap.
  destruct (len text <=? window_size) eqn:E.
  - intros [= <-]. constructor; [|constructor].
    pose proof (len_nonneg text). unfold window_well_formed. simpl.
    assert (Hsl : py_slice text 0 (len text) = text).
    { unfold py_slice. rewrite !slice_index_id by lia.
      unfold len. rewrite Z.sub_0_r, Nat2Z.id. simpl.
      by rewrite firstn_all. }
    rewrite Hsl. repeat split; lia.
  - eapply window_loop_well_formed; eauto. lia.
Qed.

Lemma window_shapes_wide_witness :
  Forall (window_well_formed long_text 200)
    [mkWindow (replicate 200 97%N) 0 200;
     mkWindow (replicate 101 97%N) 199 300].
Proof.
  apply (window_shapes_wide 3 long_text 200 1); [lia|lia|].
  vm_compute. reflexivity.
Defined.

(** ** Section Detector Adapter: the translation in closed form *)

Lemma total_len_take_S (chunk : pystr) rest j :
  total_len (take (S j) (chunk :: rest)) = len chunk + total_len (take j rest).
Proof. reflexivity. Qed.

Lemma detect_loop_closed api ej model rest : forall idx off all n,
  n = Z.of_nat (idx + length rest) ->
  detect_loop api ej model n idx rest off all
  = all ++ mjoin (imap (fun j chunk =>
                          translated api ej model
                            (off + total_len (take j rest)) (idx + j) chunk)
                    rest).
Proof.
  induction rest as [|chunk rest IH]; intros idx off all n Hn.
  - simpl. by rewrite app_nil_r.
  - rewrite imap_cons. cbn [detect_loop mjoin list_join].
    replace (off + total_len (take 0 (chunk :: rest))) with off
      by (simpl; lia).
    replace (idx + 0)%nat with idx by lia.
    fold (translated api ej model off idx chunk).
    destruct rest as [|c2 rest'].
    + simpl. by rewrite app_nil_r.
    + assert (Hlt : (Z.of_nat idx <? n - 1) = true).
      { apply Z.ltb_lt. simpl in Hn. lia. }
      rewrite Hlt.
      rewrite (IH (S idx) (off + len chunk) _ n); [|simpl in *; lia].
      rewrite <- app_assoc. do 2 f_equal. f_equal. apply imap_ext.
      intros j x _. unfold compose. rewrite total_len_take_S.
      f_equal; lia.
Qed.

(** X5.  The adapter returns, for the sub-chunks in order, the sections of
    each reply that carry both offsets, with both offsets shifted by the
    total length of the earlier sub-chunks and [chunk_idx] set to the
    sub-chunk's index; sections lacking an offset are dropped; if nothing is
    left, the single whole-document section is returned. *)
Theorem detect_translation split api ej text model max_input_tokens :
  detect_semantic_sections split api ej text model max_input_tokens
  = match collected api ej model
            (detect_chunks split text model max_input_tokens) with
    | [] => [whole_document_section text]
    | l => l
    end.
Proof.
  unfold detect_semantic_sections.
  set (chunks := detect_chunks split text model max_input_tokens).
  rewrite (detect_loop_closed api ej model chunks 0%nat 0 [] (len chunks))
    by (unfold len; lia).
  rewrite app_nil_l.
  change (mjoin _) with (collected api ej model chunks).
  by destruct (collected api ej model chunks).
Qed.

(** X6.  Every section the adapter returns is either the synthesized
    whole-document section or comes from the reply for some sub-chunk [k]:
    it has that section's title and level, [chunk_idx = k], and both offsets
    moved by the total length of the sub-chunks before [k]. *)
Theorem detect_provenance split api ej text model max_input_tokens s :
  let chunks := detect_chunks split text model max_input_tokens in
  s ∈ detect_semantic_sections split api ej text model max_input_tokens ->
  s = whole_document_section text \/
  exists k chunk s0 cs ce,
    chunks !! k = Some chunk /\
    s0 ∈ reply_sections (ej (api model k chunk)) /\
    sec_char_start s0 = Some cs /\ sec_char_end s0 = Some ce /\
    s = mkSection (sec_title s0) (sec_level s0)
          (Some (cs + total_len (take k chunks)))
          (Some (ce + total_len (take k chunks))) (Some k).
Proof.
  intros chunks. unfold detect_semantic_sections. fold chunks.
  rewrite (detect_loop_closed api ej model chunks 0%nat 0 [] (len chunks))
    by (unfold len; lia).
  simpl.
  destruct (mjoin _) as [|s1 l] eqn:E.
  { intros ->%list_elem_of_singleton. by left. }
  rewrite <- E. clear E. intros Hs. right.
  apply list_elem_of_join in Hs as (ss & Hs & Hss).
  apply elem_of_lookup_imap in Hss as (k & chunk & -> & Hk).
  apply list_elem_of_omap in Hs as (s0 & Hs0 & Hadj).
  unfold adjust_section in Hadj.
  destruct (sec_char_start s0) as [cs|] eqn:Ecs; [|done].
  destruct (sec_char_end s0) as [ce|] eqn:Ece; [|done].
  injection Hadj as <-. exists k, chunk, s0, cs, ce.
  repeat split; auto.
Qed.

Lemma detect_provenance_witness :
  mkSection (Some (py "S")) (Some 1) (Some 4) (Some 8) (Some 1%nat)
  = whole_document_section (py "abcdef") \/
  exists k chunk s0 cs ce,
    [py "abcd"; py "cdef"] !! k = Some chunk /\
    s0 ∈ [mkSection (Some (py "S")) (Some 1) (Some 0) (Some 4) None] /\
    sec_char_start s0 = Some cs /\ sec_char_end s0 = Some ce /\
    mkSection (Some (py "S")) (Some 1) (Some 4) (Some 8) (Some 1%nat)
    = mkSection (sec_title s0) (sec_level s0)
        (Some (cs + total_len (take k [py "abcd"; py "cdef"])))
        (Some (ce + total_len (take k [py "abcd"; py "cdef"]))) (Some k).
Proof.
  apply (detect_provenance (fun _ _ _ => [py "abcd"; py "cdef"])
           (fun _ _ chunk => chunk)
           (fun _ => ReplyArray [mkSection (Some (py "S")) (Some 1) (Some 0)
                                   (Some 4) None])
           (py "abcdef") None (Some 2)).
  vm_compute. right. left.
Defined.

(** ** Section Reconciler: errors, distinct keys, ties *)

(** X8.  The reconciler raises exactly when some input section has no
    [char_start]; in particular it returns on the empty list. *)
Theorem merge_raises_iff sections :
  merge_overlapping_sections sections = None <->
  exists s, s ∈ sections /\ sec_char_start s = None.
Proof.
  split.
  - intros Hnone.
    destruct (decide (Forall has_char_start sections)) as [Hall|Hn].
    + destruct (merge_shape sections Hall) as (m & Hm & _). congruence.
    + apply not_Forall_Exists in Hn; [|intros x; apply _].
      apply Exists_exists in Hn as (s & Hs & Hno). exists s. split; [done|].
      unfold has_char_start in Hno.
      destruct (sec_char_start s) eqn:E; [|done].
      exfalso. apply Hno. rewrite E. eauto.
  - intros (s & Hs & Hno).
    destruct (merge_overlapping_sections sections) as [m|] eqn:E; [|done].
    apply merge_some_has_char_start in E. rewrite Forall_forall in E.
    destruct (E s Hs) as [c Hc]. congruence.
Qed.

(** X9.  When all sections carry [char_start] and no two share a key,
    nothing is dropped: the result is a rearrangement of the input. *)
Theorem merge_distinct_keeps_all sections :
  Forall has_char_start sections ->
  NoDup (position_key <$> sections) ->
  exists merged,
    merge_overlapping_sections sections = Some merged /\
    merged ≡ₚ sections /\
    StronglySorted section_le merged.
Proof.
  intros Hcs Hnd.
  exists (sort_by_key (tag <$> sections)).*2.
  split; [|split; [apply sorted_perm|by apply sorted_sections_sorted]].
  rewrite merge_unfold, sorted_sections_Some by done. simpl.
  apply dedup_loop_NoDup.
  - by rewrite sorted_perm.
  - by rewrite sorted_perm.
  - intros ? ? _ _. set_solver.
Qed.

Lemma merge_distinct_keeps_all_witness :
  exists merged,
    merge_overlapping_sections distinct_sections = Some merged /\
    merged ≡ₚ distinct_sections /\
    StronglySorted section_le merged.
Proof.
  apply (merge_distinct_keeps_all distinct_sections).
  - unfold distinct_sections. repeat (constructor; [by eexists|]).
    constructor.
  - apply (bool_decide_unpack _). vm_compute. exact I.
Defined.

Lemma sublist_filter_mono {A} (P : A -> Prop) `{!forall x, Decision (P x)}
    (l1 l2 : list A) :
  l1 `sublist_of` l2 -> filter P l1 `sublist_of` filter P l2.
Proof.
  induction 1 as [|x l1 l2 Hsub IH|x l1 l2 Hsub IH].
  - done.
  - rewrite !filter_cons. destruct (decide _); [by constructor|exact IH].
  - rewrite (filter_cons _ x l2).
    destruct (decide _); [by constructor|exact IH].
Qed.

(** X10.  The sort is stable: among the sections that survive, those with
    the same [(char_start, level)] sort key appear in the order they had in
    the input. *)
Theorem merge_ties_keep_input_order sections merged k :
  merge_overlapping_sections sections = Some merged ->
  filter (fun s => sort_key s = Some k) merged
  `sublist_of` filter (fun s => sort_key s = Some k) sections.
Proof.
  intros Hm. pose proof (merge_some_has_char_start _ _ Hm) as Hcs.
  rewrite merge_unfold, sorted_sections_Some in Hm by done. simpl in Hm.
  assert (Hsorted : Forall has_char_start (sort_by_key (tag <$> sections)).*2)
    by by rewrite sorted_perm.
  destruct (dedup_loop_spec _ ∅ Hsorted) as (out & E & Hsub & _).
  rewrite E in Hm. injection Hm as <-.
  assert (Hf : forall l : list RawSection,
             filter (fun s => sort_key s = Some k) l
             = (filter (fun x : (Z * Z) * RawSection => sort_key x.2 = Some k)
                  (tag <$> l)).*2).
  { induction l as [|x l IH]; [done|]. csimpl.
    rewrite !filter_cons. simpl.
    destruct (decide (sort_key x = Some k)); csimpl; by rewrite IH. }
  assert (Hst : filter (fun s => sort_key s = Some k)
                  (sort_by_key (tag <$> sections)).*2
                = filter (fun s => sort_key s = Some k) sections).
  { rewrite Hf, sort_tag_snd, sort_by_key_stable, <- Hf; [done|].
    intros x y [x0 [-> Hx]]%list_elem_of_fmap [y0 [-> Hy]]%list_elem_of_fmap.
    simpl. intros Hxk Hyk. unfold tag. simpl. by rewrite Hxk, Hyk. }
  rewrite <- Hst. by apply sublist_filter_mono.
Qed.

Lemma merge_ties_keep_input_order_witness :
  filter (fun s => sort_key s = Some (7, 2))
    [mkSection (Some (py "Intro")) (Some 1) (Some 0) (Some 7) None;
     mkSection (Some (py "B")) (Some 2) (Some 7) (Some 9) None;
     mkSection (Some (py "A")) (Some 2) (Some 7) (Some 8) None]
  `sublist_of` filter (fun s => sort_key s = Some (7, 2)) distinct_sections.
Proof.
  apply (merge_ties_keep_input_order distinct_sections).
  vm_compute. reflexivity.
Defined.

(** ** Section Materializer: tiling and provenance of the text *)

Lemma extract_length text sections rest : forall i0,
  length (extract_loop text sections i0 rest) = length rest.
Proof. induction rest as [|x rest IH]; intros i0; simpl; [done|]. by rewrite IH. Qed.

Lemma extract_lookup_inv text sections i n :
  extract_section_text text sections !! i = Some n ->
  exists s, sections !! i = Some s /\ n = extract_node text sections i s.
Proof.
  intros Hn. unfold extract_section_text in Hn.
  destruct (sections !! i) as [s|] eqn:E.
  - exists s. split; [done|].
    rewrite (extract_loop_lookup _ _ _ 0%nat i s E) in Hn. by injection Hn.
  - apply lookup_ge_None in E. apply lookup_lt_Some in Hn.
    rewrite extract_length in Hn. lia.
Qed.

(** X11.  The materializer yields one candidate per section, in order, and
    the spans tile: whenever section [i+1] carries [char_start], candidate
    [i] ends exactly where candidate [i+1] starts, whatever [char_end] the
    oracle gave for section [i]. *)
Theorem extract_spans_tile text sections i next c n n' :
  sections !! S i = Some next ->
  sec_char_start next = Some c ->
  extract_section_text text sections !! i = Some n ->
  extract_section_text text sections !! S i = Some n' ->
  length (extract_section_text text sections) = length sections /\
  cand_char_end n = c /\ cand_char_start n' = c.
Proof.
  intros Hnext Hc Hn Hn'. split; [apply extract_length|].
  apply extract_lookup_inv in Hn as (s & Hs & ->).
  apply extract_lookup_inv in Hn' as (s' & Hs' & ->).
  rewrite Hnext in Hs'. injection Hs' as <-. simpl.
  rewrite section_end_next, Hnext, Hc. done.
Qed.

Lemma extract_spans_tile_witness :
  length (extract_section_text (py "  One.  Two. ")
            [mkSection (Some (py "1")) (Some 1) (Some 0) (Some 5) None;
             mkSection (Some (py "2")) (Some 1) (Some 7) None None])
  = 2%nat /\
  cand_char_end (mkCandidate (py "1") 1 0 7 (py "One.")) = 7 /\
  cand_char_start (mkCandidate (py "2") 1 7 13 (py "Two.")) = 7.
Proof.
  apply (extract_spans_tile (py "  One.  Two. ")
           [mkSection (Some (py "1")) (Some 1) (Some 0) (Some 5) None;
            mkSection (Some (py "2")) (Some 1) (Some 7) None None]
           0%nat (mkSection (Some (py "2")) (Some 1) (Some 7) None None) 7).
  - reflexivity.
  - reflexivity.
  - vm_compute. reflexivity.
  - vm_compute. reflexivity.
Defined.

(** A slice is a contiguous part of the sequence. *)
Lemma py_slice_infix {A} (s : list A) i j :
  exists a b, s = a ++ py_slice s i j ++ b.
Proof.
  unfold py_slice.
  set (lo := Z.to_nat (slice_index (len s) i)).
  set (n := Z.to_nat (slice_index (len s) j - slice_index (len s) i)).
  exists (take lo s), (drop n (drop lo s)).
  by rewrite (take_drop n), (take_drop lo).
Qed.

(** X12.  The text of every candidate is a contiguous part of the document
    and neither begins nor ends with a whitespace character. *)
Theorem extract_text_from_document text sections node :
  node ∈ extract_section_text text sections ->
  (exists before after, text = before ++ cand_text node ++ after) /\
  (forall c, head (cand_text node) = Some c -> is_space c = false) /\
  (forall c, last (cand_text node) = Some c -> is_space c = false).
Proof.
  intros [i Hi]%list_elem_of_lookup.
  apply extract_lookup_inv in Hi as (s & _ & ->). simpl.
  set (start := default 0 (sec_char_start s)).
  set (end_ := section_end text sections i s).
  destruct (py_slice_infix text start end_) as (a & b & Hab).
  destruct (strip_spec (py_slice text start end_))
    as (pre & post & Hs & _ & _ & Hhd & Hlast).
  split; [|split; assumption].
  exists (a ++ pre), (post ++ b).
  rewrite Hab at 1. rewrite Hs at 1. by rewrite <- !app_assoc.
Qed.

Lemma extract_text_from_document_witness :
  (exists before after,
     py "  One.  Two. " = before ++ py "One." ++ after) /\
  (forall c, head (py "One.") = Some c -> is_space c = false) /\
  (forall c, last (py "One.") = Some c -> is_space c = false).
Proof.
  apply (extract_text_from_document (py "  One.  Two. ")
           [mkSection (Some (py "1")) (Some 1) (Some 0) (Some 5) None;
            mkSection (Some (py "2")) (Some 1) (Some 7) None None]
           (mkCandidate (py "1") 1 0 7 (py "One."))).
  vm_compute. left.
Defined.

Lemma StronglySorted_adjacent {A} (R : relation A) l i x y :
  StronglySorted R l -> l !! i = Some x -> l !! S i = Some y -> R x y.
Proof.
  intros Hs. revert i. induction Hs as [|z l Hl IH Hz]; intros i Hx Hy; [done|].
  destruct i as [|i]; simpl in *.
  - injection Hx as ->. rewrite Forall_forall in Hz. apply Hz.
    by eapply list_elem_of_lookup_2.
  - eauto.
Qed.

(** X13.  Materializing what the reconciler returns: every candidate that
    has a successor starts no later than it ends, and ends where the
    successor starts, so the candidates' starts never decrease. *)
Theorem reconciled_spans_ordered text sections merged i n n' :
  merge_overlapping_sections sections = Some merged ->
  extract_section_text text merged !! i = Some n ->
  extract_section_text text merged !! S i = Some n' ->
  cand_char_start n <= cand_char_end n /\
  cand_char_end n = cand_char_start n'.
Proof.
  intros Hm Hn Hn'.
  destruct (merge_shape sections (merge_some_has_char_start _ _ Hm))
    as (m & Hm' & Hsorted & _).
  rewrite Hm in Hm'. injection Hm' as <-.
  apply extract_lookup_inv in Hn as (s & Hs & ->).
  apply extract_lookup_inv in Hn' as (s' & Hs' & ->).
  destruct (StronglySorted_adjacent _ _ _ _ _ Hsorted Hs Hs')
    as (c1 & c2 & H1 & H2 & Hle).
  simpl. rewrite section_end_next, Hs', H1, H2. simpl. lia.
Qed.

Lemma reconciled_spans_ordered_witness :
  cand_char_start (mkCandidate (py "Intro") 1 0 7 (py "One.")) <=
  cand_char_end (mkCandidate (py "Intro") 1 0 7 (py "One.")) /\
  cand_char_end (mkCandidate (py "Intro") 1 0 7 (py "One."))
  = cand_char_start (mkCandidate (py "A") 1 7 7 []).
Proof.
  apply (reconciled_spans_ordered (py "  One.  Two. ") sample_sections
           [mkSection (Some (py "Intro")) (Some 1) (Some 0) (Some 7)
              (Some 0%nat);
            mkSection (Some (py "A")) (Some 1) (Some 7) (Some 9) (Some 1%nat);
            mkSection (Some (py "B")) (Some 2) (Some 7) (Some 9) (Some 1%nat)]
           0%nat).
  - vm_compute. reflexivity.
  - vm_compute. reflexivity.
  - vm_compute. reflexivity.
Defined.

(** ** Tree Builder: the shape of the tree *)

Lemma lv_snoc done x a :
  (a < length done)%nat -> lv (done ++ [x]) a = lv done a.
Proof. intros H. unfold lv, level_at. by rewrite lookup_app_l. Qed.

Lemma lv_new done x : lv (done ++ [x]) (length done) = cand_level x.
Proof. unfold lv, level_at. by rewrite list_lookup_middle. Qed.

Lemma nearest_shallower_snoc done x p c :
  (c < length done)%nat ->
  nearest_shallower (done ++ [x]) p c <-> nearest_shallower done p c.
Proof.
  intros Hc. unfold nearest_shallower. rewrite length_app. simpl. split.
  - intros (Hpc & Hlt & Hgap). rewrite !lv_snoc in Hlt by lia.
    split; [lia|]. split; [done|]. intros q Hq.
    specialize (Hgap q Hq). by rewrite !lv_snoc in Hgap by lia.
  - intros (Hpc & Hlt & Hgap). rewrite !lv_snoc by lia.
    split; [lia|]. split; [done|]. intros q Hq.
    rewrite lv_snoc by lia. auto.
Qed.

Lemma no_shallower_before_snoc done x c :
  (c < length done)%nat ->
  no_shallower_before (done ++ [x]) c <-> no_shallower_before done c.
Proof.
  intros Hc. unfold no_shallower_before. rewrite length_app. simpl. split.
  - intros [_ Hgap]. split; [done|]. intros q Hq.
    specialize (Hgap q Hq). by rewrite !lv_snoc in Hgap by lia.
  - intros [_ Hgap]. split; [lia|]. intros q Hq.
    rewrite !lv_snoc by lia. auto.
Qed.

Lemma stack_chain_snoc done x stack :
  stack_chain done stack -> stack_chain (done ++ [x]) stack.
Proof.
  induction stack as [|[a l] below IH]; [done|].
  intros (Hl & Ha & Hgap & Hord & Hch). simpl.
  rewrite length_app, lv_snoc by done. simpl.
  split; [done|]. split; [lia|]. split; [|split; [done|auto]].
  intros q Hq Hab. rewrite lv_snoc by lia. auto.
Qed.

Lemma pop_closed_chain node_list stack lvl :
  stack_chain node_list stack ->
  stack_chain node_list (pop_closed stack lvl).
Proof.
  induction stack as [|[a l] below IH]; [done|]. intros Hch. simpl.
  destruct (lvl <=? l); [|done]. apply IH. apply Hch.
Qed.

(** After the pops, every candidate above the new top is at least as deep
    as the current one. *)
Lemma pop_closed_gap node_list lvl hi stack :
  stack_chain node_list stack ->
  (forall q, (q < hi)%nat -> above stack q -> lvl <= lv node_list q) ->
  forall q, (q < hi)%nat -> above (pop_closed stack lvl) q ->
            lvl <= lv node_list q.
Proof.
  induction stack as [|[a l] below IH]; [done|].
  intros (Hl & Ha & Hgap & Hord & Hch) Hhyp. simpl.
  destruct (lvl <=? l) eqn:E; [|exact Hhyp].
  apply IH; [done|]. intros q Hq Hab.
  destruct (lt_eq_lt_dec q a) as [[Hlt| ->]|Hgt].
  - specialize (Hgap q Hlt Hab). lia.
  - lia.
  - by apply Hhyp.
Qed.

Lemma children_alter_append_eq store q ref p :
  children (alter (append_child ref) q store) p
  = if decide (p = q /\ (q < length store)%nat)
    then children store p ++ [ref] else children store p.
Proof.
  unfold children. destruct (decide (p = q)) as [->|Hne].
  - rewrite list_lookup_alter_eq.
    destruct (store !! q) as [n|] eqn:E; simpl.
    + apply lookup_lt_Some in E. by rewrite decide_True.
    + apply lookup_ge_None in E. rewrite decide_False; [done|lia].
  - rewrite list_lookup_alter_ne by done.
    rewrite decide_False; [done|]. by intros [? _].
Qed.

Lemma nearest_shallower_unique node_list p p' c :
  nearest_shallower node_list p c -> nearest_shallower node_list p' c ->
  p = p'.
Proof.
  intros (Hpc & Hlt & Hgap) (Hpc' & Hlt' & Hgap').
  destruct (lt_eq_lt_dec p p') as [[H|H]|H]; [|done|].
  - specialize (Hgap p'). lia.
  - specialize (Hgap' p). lia.
Qed.

Lemma StronglySorted_snoc_lt (l : list nat) (x : nat) :
  StronglySorted Nat.lt l -> (forall y, y ∈ l -> (y < x)%nat) ->
  StronglySorted Nat.lt (l ++ [x]).
Proof.
  intros Hs Hlt. apply StronglySorted_app_2; [|done|by repeat constructor].
  intros y z Hy ->%list_elem_of_singleton. auto.
Qed.

Lemma shape_inv_init : shape_inv [] (mkBuild [] [] [] 1).
Proof.
  split; simpl; try done.
  - intros p c. unfold children, nearest_shallower. rewrite lookup_nil.
    simpl. split; [by intros ?%elem_of_nil|lia].
  - intros c. unfold no_shallower_before. simpl.
    split; [by intros ?%elem_of_nil|lia].
  - intros c Hc. lia.
  - intros p. unfold children. rewrite lookup_nil. constructor.
  - constructor.
Qed.

Lemma shape_inv_step done st node :
  shape_inv done st -> shape_inv (done ++ [node]) (build_step st node).
Proof.
  intros [Hlen Htop Hchain Hedges Hroots Hcover Hcs Hrs Hids Hcnt].
  set (k := length done) in *.
  set (lvl := cand_level node).
  set (tn := mkNode (cand_title node)
               (Some (zfill 4 (str_of_Z (bs_node_counter st))))
               (Some (cand_text node)) (cand_char_start node)
               (cand_char_end node) (Some []) None None).
  set (stack' := pop_closed (bs_stack st) lvl).
  assert (Hlvk : lv (done ++ [node]) k = lvl) by apply lv_new.
  assert (Hgap : forall q, (q < k)%nat -> above stack' q ->
                           lvl <= lv (done ++ [node]) q).
  { intros q Hq Hab. rewrite lv_snoc by done.
    apply (pop_closed_gap done lvl k (bs_stack st)); auto.
    intros q' Hq' Hab'. destruct (bs_stack st) as [|[a l] ?].
    - subst k. rewrite Htop in Hq'. simpl in Hq'. lia.
    - simpl in Hab'. lia. }
  assert (Hchain' : stack_chain (done ++ [node]) stack').
  { by apply stack_chain_snoc, pop_closed_chain. }
  assert (Hold : forall p c, c ∈ children (bs_store st ++ [tn]) p <->
                   (c < k)%nat /\ nearest_shallower (done ++ [node]) p c).
  { intros p c. rewrite children_snoc_leaf by done. rewrite Hedges. split.
    - intros Hn. assert (Hck : (c < k)%nat) by (destruct Hn; lia).
      split; [exact Hck|].
      exact (proj2 (nearest_shallower_snoc done node p c Hck) Hn).
    - intros [Hc Hn].
      exact (proj1 (nearest_shallower_snoc done node p c Hc) Hn). }
  assert (Hroots_lt : forall c, c ∈ bs_root_nodes st -> (c < k)%nat).
  { intros c Hc%Hroots. by destruct Hc. }
  assert (Hids' : forall a n, (bs_store st ++ [tn]) !! a = Some n ->
                    node_id n = Some (zfill 4 (str_of_Z (Z.of_nat a + 1)))).
  { intros a n [[_ Ha]|[Ha <-]]%lookup_snoc_Some; [by apply Hids|].
    simpl. rewrite Ha, Hlen, Hcnt. done. }
  unfold build_step. fold tn. fold lvl. fold stack'.
  destruct stack' as [|[b lb] below] eqn:Epop.
  - (* the new node is a root *)
    assert (Hnone : forall p, ~ nearest_shallower (done ++ [node]) p k).
    { intros p (Hp & Hlt & _). specialize (Hgap p). simpl in Hgap. lia. }
    split; simpl.
    + rewrite !length_app. simpl. lia.
    + rewrite length_app, Hlen. simpl. lia.
    + rewrite Hlen. fold k. rewrite Hlvk, length_app. simpl.
      split; [done|]. split; [lia|]. split; [|done].
      intros q Hq _. by apply Hgap.
    + intros p c. rewrite Hold. split; [by intros [_ ?]|].
      intros Hn. split; [|done].
      destruct (decide (c = k)) as [->|Hne]; [by apply Hnone in Hn|].
      destruct Hn as (Hpc & _). rewrite length_app in Hpc. simpl in Hpc.
      fold k in Hpc. lia.
    + intros c. rewrite elem_of_app, list_elem_of_singleton, Hroots, Hlen.
      fold k. split.
      * intros [Hc| ->].
        -- exact (proj2 (no_shallower_before_snoc done node c (proj1 Hc)) Hc).
        -- split; [rewrite length_app; simpl; fold k; lia|].
           intros q Hq. rewrite Hlvk. by apply Hgap.
      * intros Hc. destruct (decide (c = k)) as [->|Hne]; [by right|].
        left. assert (Hck : (c < k)%nat).
        { destruct Hc as [Hc _]. rewrite length_app in Hc. simpl in Hc.
          fold k in Hc. lia. }
        exact (proj1 (no_shallower_before_snoc done node c Hck) Hc).
    + intros c Hc. rewrite length_app in Hc. simpl in Hc. fold k in Hc.
      destruct (decide (c = k)) as [->|Hne].
      * left. rewrite Hlen. fold k. apply elem_of_app. right. left.
      * destruct (Hcover c) as [Hr|(p & Hp)]; [lia| |].
        -- left. apply elem_of_app. by left.
        -- right. exists p. by rewrite children_snoc_leaf.
    + intros p. by rewrite children_snoc_leaf.
    + rewrite Hlen. fold k. by apply StronglySorted_snoc_lt.
    + exact Hids'.
    + rewrite Hcnt, length_app. simpl. fold k. lia.
  - (* the new node is a child of [b] *)
    assert (Hlb : lb < lvl) by (by eapply pop_closed_head).
    destruct Hchain' as (Hb & Hbk & Hbgap & Hbord & Hbelow).
    rewrite length_app in Hbk. simpl in Hbk. fold k in Hbk.
    assert (Hbk' : (b < k)%nat).
    { assert ((b, lb) ∈ bs_stack st) as Hin.
      { apply (pop_closed_subset _ lvl).
        change (pop_closed (bs_stack st) lvl) with stack'. rewrite Epop. left. }
      clear -Hin Hchain. induction (bs_stack st) as [|[a l] s IH];
        [by apply elem_of_nil in Hin|].
      destruct Hchain as (_ & Ha & _ & _ & Hs).
      apply elem_of_cons in Hin as [[= -> ->]|Hin]; [done|auto]. }
    assert (Hnear : nearest_shallower (done ++ [node]) b k).
    { split; [rewrite length_app; simpl; fold k; lia|].
      rewrite Hlvk. split; [lia|]. intros q Hq. apply Hgap; [lia|].
      simpl. lia. }
    assert (Hnew : forall p c,
               c ∈ children (alter (append_child (length (bs_store st))) b
                               (bs_store st ++ [tn])) p <->
               nearest_shallower (done ++ [node]) p c).
    { intros p c. rewrite children_alter_append_eq, Hlen. fold k.
      rewrite length_app. simpl. rewrite Hlen. fold k.
      destruct (decide (p = b /\ (b < k + 1)%nat)) as [[-> _]|Hn].
      - rewrite elem_of_app, list_elem_of_singleton, Hold. split.
        + intros [[_ ?]| ->]; done.
        + intros Hn. destruct (decide (c = k)) as [->|Hne]; [by right|].
          left. split; [|done]. destruct Hn as (Hpc & _).
          rewrite length_app in Hpc. simpl in Hpc. fold k in Hpc. lia.
      - rewrite Hold. split; [by intros [_ ?]|].
        intros Hn'. split; [|done].
        destruct (decide (c = k)) as [->|Hne].
        + exfalso. apply Hn.
          split; [by eapply nearest_shallower_unique|lia].
        + destruct Hn' as (Hpc & _). rewrite length_app in Hpc.
          simpl in Hpc. fold k in Hpc. lia. }
    split; simpl.
    + rewrite length_alter, !length_app. simpl. lia.
    + rewrite length_app, Hlen. simpl. lia.
    + rewrite Hlen. fold k. rewrite Hlvk, length_app. simpl. fold k.
      split; [done|]. split; [lia|]. split; [|split; [done|]].
      * intros q Hq Hab. by apply Hgap.
      * split; [done|]. split; [lia|]. by repeat split.
    + exact Hnew.
    + intros c. rewrite Hroots. split.
      * intros Hc.
        exact (proj2 (no_shallower_before_snoc done node c (proj1 Hc)) Hc).
      * intros Hc. destruct (decide (c = k)) as [->|Hne].
        -- destruct Hc as [_ Hc]. specialize (Hc b Hbk').
           rewrite Hlvk, lv_snoc in Hc by done. rewrite lv_snoc in Hb by done.
           lia.
        -- assert (Hck : (c < k)%nat).
           { destruct Hc as [Hc _]. rewrite length_app in Hc. simpl in Hc.
             fold k in Hc. lia. }
           exact (proj1 (no_shallower_before_snoc done node c Hck) Hc).
    + intros c Hc. rewrite length_app in Hc. simpl in Hc. fold k in Hc.
      destruct (decide (c = k)) as [->|Hne].
      * right. exists b. by apply Hnew.
      * destruct (Hcover c) as [Hr|(p & Hp)]; [lia|by left|].
        right. exists p. apply Hnew. apply Hedges in Hp.
        assert (Hck : (c < k)%nat) by (destruct Hp; lia).
        exact (proj2 (nearest_shallower_snoc done node p c Hck) Hp).
    + intros p. rewrite children_alter_append_eq.
      destruct (decide _) as [[-> _]|_].
      * rewrite children_snoc_leaf by done. rewrite Hlen. fold k.
        apply StronglySorted_snoc_lt; [done|].
        intros y Hy%Hedges. destruct Hy; lia.
      * by rewrite children_snoc_leaf.
    + exact Hrs.
    + intros a n. rewrite list_lookup_alter.
      destruct (decide (b = a)) as [->|Hne]; [|apply Hids'].
      destruct ((bs_store st ++ [tn]) !! a) as [n0|] eqn:E; [|done].
      simpl. intros [= <-]. simpl. by apply Hids'.
    + rewrite Hcnt, length_app. simpl. fold k. lia.
Qed.

Lemma shape_inv_fold todo : forall done st,
  shape_inv done st -> shape_inv (done ++ todo) (fold_left build_step todo st).
Proof.
  induction todo as [|node todo IH]; intros done st Hinv; simpl.
  - by rewrite app_nil_r.
  - replace (done ++ node :: todo) with ((done ++ [node]) ++ todo)
      by by rewrite <- app_assoc.
    by apply IH, shape_inv_step.
Qed.

(** The invariant holds of what the builder returns. *)
Lemma build_tree_shape node_list :
  exists stack counter,
    shape_inv node_list
      (mkBuild (st_store (build_tree_from_txt_nodes node_list)) stack
         (st_roots (build_tree_from_txt_nodes node_list)) counter).
Proof.
  destruct node_list as [|c r].
  - exists [], 1. apply shape_inv_init.
  - pose proof (shape_inv_fold (c :: r) [] _ shape_inv_init) as H.
    change ([] ++ c :: r) with (c :: r) in H.
    unfold build_tree_from_txt_nodes.
    set (st := fold_left build_step (c :: r) (mkBuild [] [] [] 1)) in *.
    exists (bs_stack st), (bs_node_counter st). cbn [st_store st_roots].
    by destruct st.
Qed.

(** X14.  The parent rule: [c] is a child of [p] exactly when [p] is the
    nearest candidate before [c] with a smaller level, that is, [p] comes
    before [c], is shallower, and every candidate between them is at least
    as deep as [c]. *)
Theorem build_parent_nearest_shallower node_list p c :
  c ∈ children (st_store (build_tree_from_txt_nodes node_list)) p <->
  nearest_shallower node_list p c.
Proof.
  destruct (build_tree_shape node_list) as (stack & counter & Hinv).
  exact (shape_edges _ _ Hinv p c).
Qed.

(** X15.  The root rule: [c] is a root exactly when no candidate before it
    has a smaller level; in particular the first candidate always is. *)
Theorem build_roots_no_shallower_before node_list c :
  (c ∈ st_roots (build_tree_from_txt_nodes node_list) <->
   no_shallower_before node_list c) /\
  (node_list <> [] -> 0%nat ∈ st_roots (build_tree_from_txt_nodes node_list)).
Proof.
  destruct (build_tree_shape node_list) as (stack & counter & Hinv).
  split; [exact (shape_roots _ _ Hinv c)|].
  intros Hne. apply (shape_roots _ _ Hinv). split.
  - destruct node_list; [done|simpl; lia].
  - intros q Hq. lia.
Qed.

Lemma StronglySorted_lt_NoDup (l : list nat) :
  StronglySorted Nat.lt l -> NoDup l.
Proof.
  induction 1 as [|x l Hs IH Hx]; constructor; [|done].
  intros Hin. rewrite Forall_forall in Hx. specialize (Hx x Hin).
  unfold Nat.lt in Hx. lia.
Qed.

(** X16.  The result is a forest over the candidates: every candidate is
    either a root and nobody's child, or the child of exactly one node and
    not a root; a child always comes after its parent; and the root list
    and every child list are in document order without repetition. *)
Theorem build_is_forest node_list c :
  let s := build_tree_from_txt_nodes node_list in
  (c < length node_list)%nat ->
  ((c ∈ st_roots s /\ forall p, c ∉ children (st_store s) p) \/
   ((c ∉ st_roots s) /\
    exists p, (p < c)%nat /\ c ∈ children (st_store s) p /\
              forall p', c ∈ children (st_store s) p' -> p' = p)) /\
  StronglySorted Nat.lt (st_roots s) /\ NoDup (st_roots s) /\
  forall p, StronglySorted Nat.lt (children (st_store s) p) /\
            NoDup (children (st_store s) p).
Proof.
  intros s Hc. subst s.
  destruct (build_tree_shape node_list) as (stack & counter & Hinv).
  destruct Hinv as [_ _ _ Hedges Hroots Hcover Hcs Hrs _ _]. simpl in *.
  assert (Hexcl : forall p, c ∈ st_roots (build_tree_from_txt_nodes node_list)
                    -> c ∈ children (st_store
                         (build_tree_from_txt_nodes node_list)) p -> False).
  { intros p [_ Hr]%Hroots (Hpc & Hlt & _)%Hedges. specialize (Hr p). lia. }
  split; [|split; [done|split; [by apply StronglySorted_lt_NoDup|]]].
  - destruct (Hcover c Hc) as [Hr|(p & Hp)].
    + left. split; [done|]. intros p Hp. by eapply Hexcl.
    + right. split; [intros Hr; by eapply Hexcl|].
      exists p. split; [apply Hedges in Hp; destruct Hp; lia|].
      split; [done|]. intros p' Hp'.
      eapply nearest_shallower_unique; by apply Hedges.
  - intros p. split; [done|]. by apply StronglySorted_lt_NoDup.
Qed.

Lemma build_is_forest_witness :
  let s := build_tree_from_txt_nodes sample_outline in
  ((4%nat ∈ st_roots s /\ forall p, 4%nat ∉ children (st_store s) p) \/
   ((4%nat ∉ st_roots s) /\
    exists p, (p < 4)%nat /\ 4%nat ∈ children (st_store s) p /\
              forall p', 4%nat ∈ children (st_store s) p' -> p' = p)) /\
  StronglySorted Nat.lt (st_roots s) /\ NoDup (st_roots s) /\
  forall p, StronglySorted Nat.lt (children (st_store s) p) /\
            NoDup (children (st_store s) p).
Proof. apply (build_is_forest sample_outline 4). simpl. lia. Defined.

(** *** Node identifiers *)

Lemma unpy_py s : unpy (py s) = s.
Proof.
  unfold unpy, py.
  rewrite <- (String.string_of_list_ascii_of_string s) at 2. f_equal.
  induction (String.list_ascii_of_string s) as [|a l IH]; [done|].
  csimpl. by rewrite Ascii.ascii_N_embedding, IH.
Qed.

(** Leading zeros do not change the number. *)
Lemma uint_of_padded k t d :
  NilEmpty.uint_of_string (unpy t) = Some d ->
  exists d',
    NilEmpty.uint_of_string (unpy (replicate k 48%N ++ t)) = Some d' /\
    N.of_uint d' = N.of_uint d.
Proof.
  intros Ht. induction k as [|k (d' & Hd' & Heq)]; [by exists d|].
  exists (Decimal.D0 d'). split; [|exact Heq].
  change (unpy (replicate (S k) 48%N ++ t))
    with (String.String (Ascii.ascii_of_N 48) (unpy (replicate k 48%N ++ t))).
  simpl. by rewrite Hd'.
Qed.

Lemma uint_of_str_of_Z n :
  0 <= n ->
  NilEmpty.uint_of_string (unpy (str_of_Z n)) = Some (N.to_uint (Z.to_N n)).
Proof.
  intros Hn. unfold str_of_Z. rewrite unpy_py.
  destruct n as [|p|p]; [apply NilEmpty.usu| |lia].
  simpl. unfold NilZero.string_of_uint.
  pose proof (DecimalPos.Unsigned.to_uint_nonnil p) as Hnn.
  destruct (Pos.to_uint p) eqn:E; [done|..]; rewrite <- E; apply NilEmpty.usu.
Qed.

(** Reading a zero-filled decimal rendering back gives the number. *)
Lemma int_of_digits_zfill w n :
  0 <= n -> int_of_digits (zfill w (str_of_Z n)) = Some n.
Proof.
  intros Hn. unfold int_of_digits, zfill.
  destruct (uint_of_padded (w - length (str_of_Z n)) (str_of_Z n) _
              (uint_of_str_of_Z n Hn)) as (d' & -> & Heq).
  simpl. rewrite Heq, DecimalN.Unsigned.of_to. f_equal. lia.
Qed.

(** X17.  Node identifiers: the node built from candidate number [a]
    (counting from 0) has the identifier [str(a + 1).zfill(4)]; read as a
    number it is [a + 1]; and no two nodes of a tree share an identifier. *)
Theorem build_node_ids node_list a n :
  let store := st_store (build_tree_from_txt_nodes node_list) in
  store !! a = Some n ->
  node_id n = Some (zfill 4 (str_of_Z (Z.of_nat a + 1))) /\
  (int_of_digits <$> node_id n) = Some (Some (Z.of_nat a + 1)) /\
  forall b m, store !! b = Some m -> node_id m = node_id n -> b = a.
Proof.
  intros store Ha. subst store.
  destruct (build_tree_shape node_list) as (stack & counter & Hinv).
  pose proof (shape_ids _ _ Hinv) as Hids. simpl in Hids.
  pose proof (Hids a n Ha) as Hn. split; [exact Hn|]. split.
  - rewrite Hn. simpl. by rewrite int_of_digits_zfill by lia.
  - intros b m Hb Heq. rewrite Hn, (Hids b m Hb) in Heq.
    injection Heq as Heq. apply (f_equal int_of_digits) in Heq.
    rewrite !int_of_digits_zfill in Heq by lia.
    injection Heq as Heq. lia.
Qed.

Lemma build_node_ids_witness :
  node_id (mkNode (py "c") (Some (py "0003")) (Some (py "c")) 20 30
             (Some []) None None)
  = Some (zfill 4 (str_of_Z (Z.of_nat 2 + 1))).
Proof.
  apply (build_node_ids sample_outline 2%nat). vm_compute. reflexivity.
Defined.

(** ** Summary Orchestrator: what is left alone, and what is requested *)

Lemma same_but_summaries_refl n : same_but_summaries n n.
Proof. by repeat split. Qed.

Lemma same_but_summaries_write t n : same_but_summaries n (write_summary t n).
Proof. unfold write_summary. destruct (is_leaf n); by repeat split. Qed.

Lemma same_but_summaries_trans n1 n2 n3 :
  same_but_summaries n1 n2 -> same_but_summaries n2 n3 ->
  same_but_summaries n1 n3.
Proof.
  intros (?&?&?&?&?&?) (?&?&?&?&?&?). repeat split; congruence.
Qed.

Lemma same_but_summaries_leaf n n' :
  same_but_summaries n n' -> is_leaf n' = is_leaf n.
Proof. intros (_&_&_&_&_&H). unfold is_leaf. by rewrite H. Qed.

Lemma write_back_length pairs : forall store,
  length (write_back store pairs) = length store.
Proof.
  induction pairs as [|p pairs IH]; intros store; [done|].
  change (write_back store (p :: pairs))
    with (write_back (alter (write_summary p.2) p.1.1 store) pairs).
  by rewrite IH, length_alter.
Qed.

(** Writing back touches only the summary field that belongs to the kind
    of node, and only at the addresses written to. *)
Lemma write_back_frame pairs : forall store a n,
  store !! a = Some n ->
  exists n',
    write_back store pairs !! a = Some n' /\
    same_but_summaries n n' /\
    (is_leaf n = true -> node_prefix_summary n' = node_prefix_summary n) /\
    (is_leaf n = false -> node_summary n' = node_summary n) /\
    ((forall p, p ∈ pairs -> p.1.1 <> a) -> n' = n).
Proof.
  induction pairs as [|p pairs IH]; intros store a n Hn.
  - exists n. simpl. split; [done|].
    split; [apply same_but_summaries_refl|]. by repeat split.
  - simpl. destruct (decide (p.1.1 = a)) as [Hp|Hp].
    + destruct (IH (alter (write_summary p.2) p.1.1 store) a
                  (write_summary p.2 n)) as (n' & Hn' & Hsame & Hl & Hnl & _).
      { by rewrite Hp, list_lookup_alter_eq, Hn. }
      exists n'. split; [exact Hn'|].
      rewrite is_leaf_write_summary in Hl, Hnl.
      split; [eapply same_but_summaries_trans;
              [apply same_but_summaries_write|exact Hsame]|].
      split; [|split].
      * intros Hleaf. rewrite (Hl Hleaf). unfold write_summary.
        by rewrite Hleaf.
      * intros Hleaf. rewrite (Hnl Hleaf). unfold write_summary.
        by rewrite Hleaf.
      * intros Hno. exfalso. apply (Hno p); [left|done].
    + destruct (IH (alter (write_summary p.2) p.1.1 store) a n)
        as (n' & Hn' & Hsame & Hl & Hnl & Hun).
      { by rewrite list_lookup_alter_ne. }
      exists n'. split; [exact Hn'|]. split; [exact Hsame|].
      split; [exact Hl|]. split; [exact Hnl|].
      intros Hno. apply Hun. intros q Hq. apply Hno. by right.
Qed.

(** X18.  Writing the summaries leaves the tree as it is: the same roots,
    the same number of nodes, and for every node the same title, id, text,
    offsets and children; a leaf keeps its [prefix_summary], a non-leaf its
    [summary]; and a node that is not in the flattened list is not touched
    at all. *)
Theorem summaries_preserve_tree count_tokens gen s2l (s : Structure)
    thr model mit :
  let run := generate_summaries_for_txt_structure count_tokens gen s2l s
               thr model mit in
  st_roots run.1 = st_roots s /\
  length (st_store run.1) = length (st_store s) /\
  forall a n, st_store s !! a = Some n ->
    exists n',
      st_store run.1 !! a = Some n' /\
      same_but_summaries n n' /\
      (is_leaf n = true -> node_prefix_summary n' = node_prefix_summary n) /\
      (is_leaf n = false -> node_summary n' = node_summary n) /\
      (a ∉ s2l s -> n' = n).
Proof.
  intros run. subst run. unfold generate_summaries_for_txt_structure. simpl.
  split; [done|]. split; [apply write_back_length|].
  intros a n Hn.
  set (nodes := live_nodes (st_store s) (s2l s)).
  set (pairs := zip nodes _).
  destruct (write_back_frame pairs (st_store s) a n Hn)
    as (n' & Hn' & Hsame & Hl & Hnl & Hun).
  exists n'. split; [exact Hn'|]. split; [exact Hsame|].
  split; [exact Hl|]. split; [exact Hnl|].
  intros Hnot. apply Hun. intros [[a' n0] t] Hp Ha. simpl in Ha. subst a'.
  apply elem_of_lookup_zip_with_1 in Hp as (k & x & y & [= <- <-] & Hx & _).
  apply list_elem_of_lookup_2, live_nodes_elem in Hx as [Hin _]. done.
Qed.

Lemma oracle_calls_lookup_2 tasks k n :
  tasks !! k = Some (AskOracle n) -> (k, n) ∈ oracle_calls tasks.
Proof.
  intros Hk. unfold oracle_calls. apply list_elem_of_omap.
  exists (k, AskOracle n). split; [|done].
  by apply (elem_of_lookup_imap_2 pair).
Qed.

(** X19.  A request goes to the summarizer for exactly the listed nodes
    whose text counts at least [summary_token_threshold] tokens: task [k]
    makes a request, with the node as its argument, if and only if the
    [k]-th listed node is at or above the threshold. *)
Theorem summary_requests_exact count_tokens gen s2l (s : Structure)
    thr model mit k n :
  (k, n) ∈ (generate_summaries_for_txt_structure count_tokens gen s2l s
              thr model mit).2 <->
  exists a,
    live_nodes (st_store s) (s2l s) !! k = Some (a, n) /\
    thr <= count_tokens (default [] (node_text n)) model.
Proof.
  unfold generate_summaries_for_txt_structure. simpl.
  set (nodes := live_nodes (st_store s) (s2l s)). split.
  - intros Hcall%oracle_calls_lookup.
    rewrite list_lookup_fmap in Hcall.
    destruct (nodes !! k) as [[a n']|] eqn:Ek; [|done].
    simpl in Hcall. injection Hcall as Hcall.
    apply get_node_summary_txt_ask in Hcall as [-> Hge]. by exists a.
  - intros (a & Hk & Hge). apply oracle_calls_lookup_2.
    rewrite list_lookup_fmap, Hk. simpl. unfold get_node_summary_txt.
    destruct (_ <? _) eqn:E; [lia|done].
Qed.

Lemma live_nodes_fst_sublist store refs :
  (live_nodes store refs).*1 `sublist_of` refs.
Proof.
  unfold live_nodes. induction refs as [|a refs IH]; [done|]. csimpl.
  destruct (store !! a); csimpl; by constructor.
Qed.

(** X20.  A node at or above the threshold that is listed once: a request
    is made for it, and the summarizer's answer to that request is what the
    node holds afterwards, in [summary] if it is a leaf and in
    [prefix_summary] otherwise. *)
Theorem summary_above_threshold count_tokens gen s2l (s : Structure)
    thr model mit a node :
  NoDup (s2l s) ->
  a ∈ s2l s ->
  st_store s !! a = Some node ->
  thr <= count_tokens (default [] (node_text node)) model ->
  let run := generate_summaries_for_txt_structure count_tokens gen s2l s
               thr model mit in
  exists k node',
    live_nodes (st_store s) (s2l s) !! k = Some (a, node) /\
    (k, node) ∈ run.2 /\
    st_store run.1 !! a = Some node' /\
    (if is_leaf node then node_summary node' = Some (gen model mit k node)
     else node_prefix_summary node' = Some (gen model mit k node)).
Proof.
  intros Hnd Ha Hnode Hge run. subst run.
  unfold generate_summaries_for_txt_structure. simpl.
  set (nodes := live_nodes (st_store s) (s2l s)).
  set (tasks := (fun n => get_node_summary_txt count_tokens n.2 thr model)
                  <$> nodes).
  assert (Hin : (a, node) ∈ nodes) by by apply live_nodes_elem.
  apply list_elem_of_lookup_1 in Hin as [k Hk].
  assert (Htask : tasks !! k = Some (AskOracle node)).
  { unfold tasks. rewrite list_lookup_fmap, Hk. simpl.
    unfold get_node_summary_txt. destruct (_ <? _) eqn:E; [lia|done]. }
  assert (Hsum : gather gen model mit tasks !! k
                 = Some (gen model mit k node)).
  { unfold gather. by rewrite list_lookup_imap, Htask. }
  assert (Hnd' : NoDup nodes.*1).
  { eapply sublist_NoDup; [exact Hnd|apply live_nodes_fst_sublist]. }
  destruct (write_back_written a (gen model mit k node)
              (zip nodes (gather gen model mit tasks)) (st_store s) node)
    as (n' & Hn' & Hleaf & Hw); [done| |].
  { intros [[a' n0] t] Hp Hpa. simpl in Hpa. subst a'. simpl.
    apply elem_of_lookup_zip_with_1 in Hp
      as (k' & x & y & [= <- <-] & Hx & Hy).
    assert (k' = k) as ->.
    { eapply (NoDup_lookup _ _ _ a Hnd');
        rewrite list_lookup_fmap; [by rewrite Hx|by rewrite Hk]. }
    congruence. }
  exists k, n'. split; [done|]. split; [by apply oracle_calls_lookup_2|].
  split; [exact Hn'|].
  assert (Hwr : written (gen model mit k node) n').
  { apply Hw. right. exists ((a, node), gen model mit k node).
    split; [|done]. eapply (elem_of_lookup_zip_with_2 pair); eauto. }
  unfold written in Hwr. by rewrite Hleaf in Hwr.
Qed.

Lemma summary_above_threshold_witness :
  exists k node',
    live_nodes (st_store sample_tree) [0; 1]%nat !! k
    = Some (1%nat,
            mkNode (py "Sub") (Some (py "0002"))
              (Some (py "a much longer text")) 5 23 (Some []) None None) /\
    (k, mkNode (py "Sub") (Some (py "0002")) (Some (py "a much longer text"))
          5 23 (Some []) None None)
    ∈ (generate_summaries_for_txt_structure (fun t _ => len t)
         (fun _ _ _ _ => py "SUMMARY") (fun _ => [0; 1]%nat) sample_tree 10
         None None).2 /\
    st_store
      (generate_summaries_for_txt_structure (fun t _ => len t)
         (fun _ _ _ _ => py "SUMMARY") (fun _ => [0; 1]%nat) sample_tree 10
         None None).1 !! 1%nat = Some node' /\
    node_summary node' = Some (py "SUMMARY").
Proof.
  apply (summary_above_threshold (fun t _ => len t)
           (fun _ _ _ _ => py "SUMMARY") (fun _ => [0; 1]%nat) sample_tree 10
           None None 1%nat
           (mkNode (py "Sub") (Some (py "0002"))
              (Some (py "a much longer text")) 5 23 (Some []) None None)).
  - apply (bool_decide_unpack _). vm_compute. exact I.
  - right. left.
  - reflexivity.
  - vm_compute. discriminate.
Defined.

(** ** The pipeline on a document without detected structure *)

Lemma py_slice_full {A} (s : list A) : py_slice s 0 (len s) = s.
Proof.
  pose proof (len_nonneg s). unfold py_slice.
  rewrite !slice_index_id by lia. unfold len.
  rewrite Z.sub_0_r, Nat2Z.id. simpl. by rewrite firstn_all.
Qed.

Lemma detect_nothing split api ej text model max_input_tokens :
  (forall k chunk, ej (api model k chunk) = ReplyOther) ->
  detect_semantic_sections split api ej text model max_input_tokens
  = [whole_document_section text].
Proof.
  intros Hno. unfold detect_semantic_sections.
  by rewrite detect_loop_no_arrays.
Qed.

Lemma merge_whole_document text :
  merge_overlapping_sections [whole_document_section text]
  = Some [whole_document_section text].
Proof.
  rewrite merge_unfold, sorted_sections_Some
    by (repeat constructor; by eexists).
  simpl. destruct (decide _) as [Hin|_]; [|done].
  by apply not_elem_of_empty in Hin.
Qed.

(** X21.  When no reply of the oracle is an array and summaries are not
    requested, the tree handed to the formatter has exactly one node, a
    root: title ["Document Content"], id ["0001"], the whole document with
    surrounding whitespace removed as its text, span [0..len(text)], no
    children; and the result carries no description. *)
Theorem txt_to_tree_flat_document
    split api ej count_tokens gen s2l write_node_id format_structure
    clean describe read_file path_stem
    txt_path window_size overlap
    if_add_node_summary summary_token_threshold model
    if_add_doc_description if_add_node_text if_add_node_id max_input_tokens :
  (forall k chunk, ej (api model k chunk) = ReplyOther) ->
  yes if_add_node_summary = false ->
  let text := read_file txt_path in
  let single :=
    mkStructure
      [mkNode (py "Document Content") (Some (py "0001")) (Some (strip text))
         0 (len text) (Some []) None None]
      [0%nat] in
  (txt_to_tree split api ej count_tokens gen s2l write_node_id
     format_structure clean describe read_file path_stem
     txt_path window_size overlap if_add_node_summary
     summary_token_threshold model if_add_doc_description if_add_node_text
     if_add_node_id max_input_tokens).2
  = mkResult (path_stem txt_path) None
      (format_structure
         (if yes if_add_node_id then write_node_id single else single)
         (if yes if_add_node_text then order_with_text
          else order_without_text)).
Proof.
  intros Hno Hsum text single. unfold txt_to_tree. fold text.
  rewrite Hsum, (detect_nothing _ _ _ _ _ _ Hno), merge_whole_document.
  assert (Hext : extract_section_text text [whole_document_section text]
                 = [mkCandidate (py "Document Content") 1 0 (len text)
                      (strip text)]).
  { unfold extract_section_text. simpl. unfold extract_node, section_end.
    simpl. by rewrite py_slice_full. }
  change (default [] (Some [whole_document_section text]))
    with [whole_document_section text].
  rewrite Hext.
  change (build_tree_from_txt_nodes
            [mkCandidate (py "Document Content") 1 0 (len text) (strip text)])
    with single.
  by destruct (yes if_add_node_text).
Qed.

Lemma txt_to_tree_flat_document_witness :
  (txt_to_tree (fun _ _ _ => []) (fun _ _ _ => []) (fun _ => ReplyOther)
     (fun t _ => len t) (fun _ _ _ _ => []) (fun _ => [])
     (fun s => s) (fun s _ => s) (fun s => s) (fun _ _ _ => [])
     (fun _ => py " Some text. ") (fun p => p)
     (py "doc") 5000 500 (py "no") 200 None (py "no") (py "yes") (py "yes")
     None).2
  = mkResult (py "doc") None
      (mkStructure
         [mkNode (py "Document Content") (Some (py "0001"))
            (Some (py "Some text.")) 0 12 (Some []) None None]
         [0%nat]).
Proof.
  rewrite (txt_to_tree_flat_document (fun _ _ _ => []) (fun _ _ _ => [])
             (fun _ => ReplyOther)); [|done|done].
  vm_compute. reflexivity.
Defined.

(** ** Command line *)

Lemma given_Some path : given path = true -> path = Some (default [] path).
Proof. by destruct path as [[|c l]|]. Qed.

Lemma given_nonempty path : given path = true -> default [] path <> [].
Proof. by destruct path as [[|c l]|]. Qed.

(** X22.  The text branch is taken exactly when [--txt_path] is the only
    path given, its lower-cased name ends in [.txt], and the file exists;
    the path processed is then that argument. *)
Theorem dispatch_txt_iff lower isfile pdf_path md_path txt_path p :
  dispatch lower isfile pdf_path md_path txt_path = ProcessTxt p <->
  txt_path = Some p /\ p <> [] /\
  given pdf_path = false /\ given md_path = false /\
  endswith (lower p) (py ".txt") = true /\ isfile p = true.
Proof.
  unfold dispatch. split.
  - destruct (given pdf_path) eqn:Hpdf, (given md_path) eqn:Hmd,
      (given txt_path) eqn:Htxt; simpl; try done.
    + destruct (endswith _ _), (isfile _); done.
    + destruct (endswith _ _ || endswith _ _), (isfile _); done.
    + destruct (endswith _ _) eqn:He; simpl; [|done].
      destruct (isfile _) eqn:Hf; simpl; [|done].
      intros [= <-]. split; [by apply given_Some|].
      split; [by apply given_nonempty|]. done.
  - intros (-> & Hp & -> & -> & He & Hf).
    destruct p as [|c l]; [done|]. simpl. by rewrite He, Hf.
Qed.

Ltac dispatch_iff :=
  split;
  [ intros H;
    first [ lia | discriminate H
          | injection H as H; vm_compute in H; discriminate H ]
  | intros H; first [ reflexivity | lia ] ].

(** X23.  Exactly one path must be given: with none, or with two or more,
    the call fails with the corresponding [ValueError] before any other
    check, and only then; with exactly one, the chain never ends without
    taking a branch, and a file is processed only if it was the single
    path given and exists. *)
Theorem dispatch_exactly_one lower isfile pdf_path md_path txt_path :
  let count :=
    Z.b2z (given pdf_path) + Z.b2z (given md_path) + Z.b2z (given txt_path) in
  let result := dispatch lower isfile pdf_path md_path txt_path in
  (result = RaiseValueError msg_none <-> count = 0) /\
  (result = RaiseValueError msg_many <-> 1 < count) /\
  result <> NoAction /\
  (forall p, result = ProcessPdf p \/ result = ProcessMd p \/
             result = ProcessTxt p -> count = 1 /\ isfile p = true).
Proof.
  intros count result. subst count result. unfold dispatch.
  destruct (given pdf_path) eqn:Hpdf, (given md_path) eqn:Hmd,
    (given txt_path) eqn:Htxt; cbn [Z.b2z Z.add Z.eqb Z.ltb Z.compare
                                     Pos.add Pos.succ Pos.compare
                                     Pos.compare_cont];
    repeat match goal with
           | |- context [negb (endswith ?a ?b || endswith ?c ?d)] =>
               destruct (endswith a b || endswith c d); cbn [negb]
           | |- context [negb (endswith ?a ?b)] =>
               destruct (endswith a b); cbn [negb]
           | |- context [negb (isfile ?a)] =>
               destruct (isfile a) eqn:?; cbn [negb]
           end;
    (split; [dispatch_iff|]); (split; [dispatch_iff|]); (split; [done|]);
    intros p [H|[H|H]]; try discriminate H; injection H as <-;
    (split; [lia|assumption]).
Qed.

Lemma dispatch_txt_iff_witness :
  dispatch (fun s => s) (fun _ => true) None (Some []) (Some (py "a.txt"))
  = ProcessTxt (py "a.txt").
Proof.
  apply (dispatch_txt_iff (fun s => s) (fun _ => true) None (Some [])
           (Some (py "a.txt")) (py "a.txt")).
  repeat split; done.
Defined.

(** ** Windower: sentence boundaries and the number of windows *)








(** A step that does not return moves [start] by at least
    [window_size - overlap - 198]. *)
Lemma window_step_stride text window_size overlap start w start' :
  window_step text window_size overlap start = LoopNext w start' ->
  start + (window_size - overlap - 198) <= start'.
Proof.
  unfold window_step. destruct (start <? len text) eqn:Es; [|done].
  destruct (len text <=? _) eqn:Ee; [done|]. intros [= _ <-].
  pose proof (window_end_ge text window_size start). lia.
Qed.

Lemma window_loop_count text window_size overlap :
  0 <= overlap -> overlap + 198 < window_size ->
  forall f start windows,
    len text - start
    <= (window_size - overlap - 198) * (Z.of_nat f + 1) ->
    exists result,
      window_loop (S f) text window_size overlap start windows = Some result
      /\ (length result <= length windows + S f)%nat.
Proof.
  intros Hov Hgap. induction f as [|f IH]; intros start windows Hm.
  - simpl. destruct (window_step _ _ _ _) as [|w|w start'] eqn:E.
    + exists windows. split; [done|lia].
    + exists (windows ++ [w]). split; [done|]. rewrite length_app. simpl. lia.
    + exfalso. unfold window_step in E.
      destruct (start <? len text) eqn:Es; [|done].
      destruct (len text <=? _) eqn:Ee; [done|].
      pose proof (window_end_ge text window_size start). lia.
  - change (window_loop (S (S f)) text window_size overlap start windows)
      with (match window_step text window_size overlap start with
            | LoopExit => Some windows
            | LoopBreak w => Some (windows ++ [w])
            | LoopNext w start' =>
                window_loop (S f) text window_size overlap start'
                  (windows ++ [w])
            end).
    destruct (window_step _ _ _ _) as [|w|w start'] eqn:E.
    + exists windows. split; [done|lia].
    + exists (windows ++ [w]). split; [done|]. rewrite length_app. simpl. lia.
    + pose proof (window_step_stride _ _ _ _ _ _ E) as Hstride.
      destruct (IH start' (windows ++ [w])) as (result & Hr & Hlen); [lia|].
      exists result. split; [done|]. rewrite length_app in Hlen. simpl in Hlen.
      lia.
Qed.

(** X25.  With [0 <= overlap] and [overlap + 198 < window_size], the
    windower returns after at most
    [len(text) / (window_size - overlap - 198) + 1] iterations, and with at
    most that many windows. *)
Theorem window_count_bound text window_size overlap :
  0 <= overlap -> overlap + 198 < window_size ->
  let n := Z.to_nat (len text / (window_size - overlap - 198)) in
  exists windows,
    window_text_with_overlap (S n) text window_size overlap = Some windows /\
    (length windows <= S n)%nat.
Proof.
  intros Hov Hgap n. unfold window_text_with_overlap.
  destruct (len text <=? window_size).
  - eexists. split; [done|]. simpl. lia.
  - destruct (window_loop_count text window_size overlap Hov Hgap n 0 [])
      as (result & Hr & Hlen).
    + pose proof (len_nonneg text) as Hl.
      set (g := window_size - overlap - 198) in *.
      assert (Hg : 0 < g) by (subst g; lia).
      subst n. rewrite Z2Nat.id by (apply Z.div_pos; lia).
      pose proof (Z.mul_succ_div_gt (len text) g Hg). lia.
    + exists result. split; [done|]. simpl in Hlen. lia.
Qed.

Lemma window_count_bound_witness :
  exists windows,
    window_text_with_overlap
      (S (Z.to_nat (len long_text / (200 - 1 - 198)))) long_text 200 1
    = Some windows /\
    (length windows <= S (Z.to_nat (len long_text / (200 - 1 - 198))))%nat.
Proof. apply (window_count_bound long_text 200 1); lia. Defined.

(** ** Instances of the properties above *)

Lemma build_roots_no_shallower_before_witness :
  0%nat ∈ st_roots (build_tree_from_txt_nodes sample_outline).
Proof.
  apply (build_roots_no_shallower_before sample_outline 0). done.
Defined.

Lemma summaries_preserve_tree_witness :
  exists n',
    st_store
      (generate_summaries_for_txt_structure (fun t _ => len t)
         (fun _ _ _ _ => py "SUMMARY") (fun _ => [0; 1]%nat) sample_tree 10
         None None).1 !! 0%nat = Some n' /\
    same_but_summaries
      (mkNode (py "Top") (Some (py "0001")) (Some (py "short")) 0 5
         (Some [1%nat]) None None) n'.
Proof.
  destruct (summaries_preserve_tree (fun t _ => len t)
              (fun _ _ _ _ => py "SUMMARY") (fun _ => [0; 1]%nat) sample_tree
              10 None None) as (_ & _ & H).
  destruct (H 0%nat
              (mkNode (py "Top") (Some (py "0001")) (Some (py "short")) 0 5
                 (Some [1%nat]) None None)) as (n' & Hn' & Hsame & _);
    [reflexivity|].
  exists n'. split; [exact Hn'|exact Hsame].
Defined.

Lemma dispatch_exactly_one_witness :
  dispatch (fun s => s) (fun _ => true) (Some (py "a.pdf")) None
    (Some (py "a.txt"))
  = RaiseValueError msg_many.
Proof.
  apply (dispatch_exactly_one (fun s => s) (fun _ => true)
           (Some (py "a.pdf")) None (Some (py "a.txt"))).
  simpl. lia.
Defined.
